(** * Ai-Subtitle: the job pipeline of [server.js]

    A shallow embedding of [server.js] (the upload endpoint, [runCommand]
    and [processVideo]) together with the properties of the pipeline that
    its specification states.

    Platform.  The image built by the [Dockerfile] is [node:20] on Linux,
    with [server.js] copied to [/app]; hence [process.platform] is not
    [win32], [path] is [path.posix] and [__dirname] is [/app].  The branch
    [if (isWin)] of [processVideo] is dead there.

    Effects.  [processVideo] talks to four things: the filesystem, the
    subscriber's socket, the shell (through [child_process.exec]) and the
    console.  The embedding threads a [World] that records the files that
    exist and the traces of the three others; what an external tool does is
    a parameter ([exec_oracle]) of the development. *)

From stdpp Require Import base gmap strings list pretty.
From Stdlib Require Import Ascii String ZArith Lia Sorted.

Open Scope string_scope.
Open Scope list_scope.

(** ** Strings *)

Definition chars (s : string) : list ascii := list_ascii_of_string s.
Definition str (l : list ascii) : string := string_of_list_ascii l.

(** The double quote, which a string literal cannot hold here. *)
Definition dq : string := String (ascii_of_nat 34) EmptyString.

(** [`${a}${b}...`]: a template literal is the concatenation of its parts. *)
Definition template (parts : list string) : string :=
  foldr String.append EmptyString parts.

(** ** [path.posix] of Node.js

    [join], [normalize], [basename] and [extname] as Node documents them
    for POSIX paths.  A path is cut at ["/"]; the last segment is the one
    before the trailing slashes. *)
Module path.

Definition slash : ascii := "/"%char.
Definition dot : ascii := "."%char.

Definition is_slash (c : ascii) : bool := bool_decide (c = slash).
Definition is_dot (c : ascii) : bool := bool_decide (c = dot).

(** The segments of a path, cut at every ["/"]. *)
Fixpoint split_slash (cur : list ascii) (l : list ascii) : list (list ascii) :=
  match l with
  | [] => [reverse cur]
  | c :: l' =>
      if is_slash c then reverse cur :: split_slash [] l'
      else split_slash (c :: cur) l'
  end.

(** [normalizeString]: drops empty and ["."] segments; [".."] removes the
    segment before it, and is kept only above the root of a relative path.
    [acc] is the result so far, last segment first. *)
Fixpoint normalize_segments (allowAboveRoot : bool) (acc : list (list ascii))
    (segs : list (list ascii)) : list (list ascii) :=
  match segs with
  | [] => reverse acc
  | s :: segs' =>
      if bool_decide (s = []) || bool_decide (s = [dot]) then
        normalize_segments allowAboveRoot acc segs'
      else if bool_decide (s = [dot; dot]) then
        match acc with
        | a :: acc' =>
            if bool_decide (a = [dot; dot])
            then normalize_segments allowAboveRoot (s :: acc) segs'
            else normalize_segments allowAboveRoot acc' segs'
        | [] =>
            if allowAboveRoot
            then normalize_segments allowAboveRoot [s] segs'
            else normalize_segments allowAboveRoot [] segs'
        end
      else normalize_segments allowAboveRoot (s :: acc) segs'
  end.

Fixpoint join_slash (segs : list (list ascii)) : list ascii :=
  match segs with
  | [] => []
  | [s] => s
  | s :: segs' => s ++ slash :: join_slash segs'
  end.

Definition normalize_chars (p : list ascii) : list ascii :=
  match p with
  | [] => [dot]
  | c :: _ =>
      let isAbsolute := is_slash c in
      let trailingSeparator :=
        match last p with Some d => is_slash d | None => false end in
      let body :=
        join_slash (normalize_segments (negb isAbsolute) [] (split_slash [] p)) in
      match body with
      | [] =>
          if isAbsolute then [slash]
          else if trailingSeparator then [dot; slash] else [dot]
      | _ =>
          let body' := if trailingSeparator then body ++ [slash] else body in
          if isAbsolute then slash :: body' else body'
      end
  end.

Definition normalize (p : string) : string := str (normalize_chars (chars p)).

(** [path.join(...args)]: the non-empty arguments joined by ["/"], then
    normalized; ["."] when nothing is left. *)
Definition join (args : list string) : string :=
  let parts := filter (λ l, l ≠ []) (chars <$> args) in
  match parts with
  | [] => "."
  | _ => str (normalize_chars (join_slash parts))
  end.

Fixpoint drop_slashes (r : list ascii) : list ascii :=
  match r with
  | c :: r' => if is_slash c then drop_slashes r' else r
  | [] => []
  end.

Fixpoint take_segment (r : list ascii) : list ascii :=
  match r with
  | c :: r' => if is_slash c then [] else c :: take_segment r'
  | [] => []
  end.

(** The last segment of a path, last character first. *)
Definition last_segment_rev (p : list ascii) : list ascii :=
  take_segment (drop_slashes (reverse p)).

(** Cuts a reversed segment at its first ["."], that is at the last dot
    of the segment: the reversed text after the dot, and what is before. *)
Fixpoint split_last_dot (r : list ascii) : option (list ascii * list ascii) :=
  match r with
  | [] => None
  | c :: r' =>
      if is_dot c then Some ([], r')
      else match split_last_dot r' with
           | Some (e, before) => Some (c :: e, before)
           | None => None
           end
  end.

(** [path.extname(p)]: from the last ["."] of the last segment to its end;
    empty when the segment has no dot, starts at its only dot, or is
    [".."]. *)
Definition extname_chars (p : list ascii) : list ascii :=
  match split_last_dot (last_segment_rev p) with
  | None => []
  | Some (e, before) =>
      match before with
      | [] => []
      | _ =>
          if bool_decide (e = []) && bool_decide (before = [dot]) then []
          else dot :: reverse e
      end
  end.

Definition extname (p : string) : string := str (extname_chars (chars p)).

(** [strip_suffix_rev sfx seg]: [seg] without the reversed suffix [sfx],
    when [seg] ends with it. *)
Fixpoint strip_suffix_rev (sfx seg : list ascii) : option (list ascii) :=
  match sfx, seg with
  | [], _ => Some seg
  | a :: sfx', b :: seg' =>
      if bool_decide (a = b) then strip_suffix_rev sfx' seg' else None
  | _ :: _, [] => None
  end.

(** [path.basename(p, suffix)]: the last segment of [p]; a non-empty
    [suffix] is removed from its end unless it is the whole segment.
    ([server.js] only passes [extname(p)], which the segment ends with.) *)
Definition basename_chars (p suffix : list ascii) : list ascii :=
  let seg := last_segment_rev p in
  match suffix with
  | [] => reverse seg
  | _ =>
      if bool_decide (suffix = p) then []
      else match strip_suffix_rev (reverse suffix) seg with
           | Some [] => reverse seg
           | Some rest => reverse rest
           | None => reverse seg
           end
  end.

Definition basename (p suffix : string) : string :=
  str (basename_chars (chars p) (chars suffix)).

End path.

(** ** The world of a job *)

(** A connected client of the socket.io server. *)
Record Socket := mkSocket { socket_id : string }.

(** What [socket.emit(kind, payload)] sends: the four event kinds of
    [server.js]. *)
Inductive Event :=
| EvLog (message : string)
| EvProgress (percent : Z)
| EvComplete (downloadUrl : string)
| EvError (message : string).

(** What JavaScript throws here: a [TypeError] for a property read on
    [undefined], the error [exec] hands to its callback, and
    [new Error(message)]. *)
Inductive JsError :=
| TypeError (message : string)
| ExecError (message : string)
| Error (message : string).

Definition err_message (e : JsError) : string :=
  match e with TypeError m | ExecError m | Error m => m end.

(** What [exec] hands to its callback: the captured output, or an error
    (non-zero exit status, or the process could not be started). *)
Inductive ExecResult :=
| ExecOk (stdout : string)
| ExecFailed (message : string).

(** One call of [exec]: the command line, what the callback got, and the
    files on disk when the process had ended. *)
Record Invocation := mkInvocation {
  inv_command : string;
  inv_result : ExecResult;
  inv_files : gset string
}.

Record World := mkWorld {
  files : gset string;              (* the paths that exist on disk *)
  emitted : list (Socket * Event);  (* events sent, oldest first *)
  invocations : list Invocation;    (* calls of [exec], oldest first *)
  unlinked : list string;           (* paths removed by [fs.unlinkSync] *)
  console : list string;            (* lines of [console.log] / [console.error] *)
  unhandled : list JsError          (* rejections of promises nobody awaits *)
}.

Definition set_files (fs : gset string) (w : World) : World :=
  mkWorld fs (emitted w) (invocations w) (unlinked w) (console w) (unhandled w).
Definition add_emitted (x : Socket * Event) (w : World) : World :=
  mkWorld (files w) (emitted w ++ [x]) (invocations w) (unlinked w) (console w) (unhandled w).
Definition add_invocation (i : Invocation) (w : World) : World :=
  mkWorld (files w) (emitted w) (invocations w ++ [i]) (unlinked w) (console w) (unhandled w).
Definition add_unlinked (p : string) (w : World) : World :=
  mkWorld (files w) (emitted w) (invocations w) (unlinked w ++ [p]) (console w) (unhandled w).
Definition add_console (l : string) (w : World) : World :=
  mkWorld (files w) (emitted w) (invocations w) (unlinked w) (console w ++ [l]) (unhandled w).
Definition add_unhandled (e : JsError) (w : World) : World :=
  mkWorld (files w) (emitted w) (invocations w) (unlinked w) (console w) (unhandled w ++ [e]).

(** ** Computations that change the world and may throw

    A statement either returns or throws; what it did to the world before
    throwing stays done.  An [async] function is run to its end: its
    [await]s only order the steps of one job. *)
Inductive Outcome (A : Type) :=
| Return (a : A)
| Throw (e : JsError).
Arguments Return {A} a.
Arguments Throw {A} e.

Definition Js (A : Type) : Type := World → Outcome A * World.

Definition Js_ret {A} (a : A) : Js A := λ w, (Return a, w).
Definition Js_bind {A B} (f : A → Js B) (m : Js A) : Js B :=
  λ w, match m w with
       | (Return a, w') => f a w'
       | (Throw e, w') => (Throw e, w')
       end.

#[global] Instance Js_mret : MRet Js := @Js_ret.
#[global] Instance Js_mbind : MBind Js := @Js_bind.

Definition throw {A} (e : JsError) : Js A := λ w, (Throw e, w).

(** [try { body } catch (err) { handler }] *)
Definition try_catch {A} (body : Js A) (handler : JsError → Js A) : Js A :=
  λ w, match body w with
       | (Return a, w') => (Return a, w')
       | (Throw e, w') => handler e w'
       end.

(** Calling an [async] function without awaiting it: the caller goes on
    whatever the promise does; a rejection is left unhandled. *)
Definition spawn (job : Js unit) : Js unit :=
  λ w, match job w with
       | (Return _, w') => (Return tt, w')
       | (Throw e, w') => (Return tt, add_unhandled e w')
       end.

(** ** The primitives [server.js] calls *)

Definition undefined_emit : JsError :=
  TypeError "Cannot read properties of undefined (reading 'emit')".

(** [socket.emit(kind, payload)], where [socket] may be [undefined]. *)
Definition emit (socket : option Socket) (ev : Event) : Js unit :=
  match socket with
  | Some s => λ w, (Return tt, add_emitted (s, ev) w)
  | None => throw undefined_emit
  end.

Definition console_log (line : string) : Js unit :=
  λ w, (Return tt, add_console line w).

Definition existsSync (p : string) : Js bool :=
  λ w, (Return (bool_decide (p ∈ files w)), w).

Definition enoent (syscall p : string) : JsError :=
  Error (template ["ENOENT: no such file or directory, "; syscall; " '"; p; "'"]).

Definition unlinkSync (p : string) : Js unit :=
  λ w, if bool_decide (p ∈ files w)
       then (Return tt, add_unlinked p (set_files (files w ∖ {[p]}) w))
       else (Throw (enoent "unlink" p), w).

Definition copyFileSync (src dest : string) : Js unit :=
  λ w, if bool_decide (src ∈ files w)
       then (Return tt, set_files (files w ∪ {[dest]}) w)
       else (Throw (enoent "copyfile" src), w).

(** ** Constants of [server.js] *)

Definition __dirname : string := "/app".
Definition UPLOADS_DIR : string := path.join [__dirname; "uploads"].
Definition OUTPUT_DIR : string := path.join [__dirname; "outputs"].

Definition isWin : bool := false.
Definition ffmpegPath : string :=
  if isWin
  then "C:\Users\aatmi\AppData\Local\Microsoft\WinGet\Packages\Gyan.FFmpeg_Microsoft.Winget.Source_8wekyb3d8bbwe\ffmpeg-8.0.1-full_build\bin\ffmpeg.exe"
  else "ffmpeg".

Definition style : string :=
  "Fontname=Arial,Fontsize=10,PrimaryColour=&H00FFFFFF,OutlineColour=&H00000000,BorderStyle=1,Outline=1,Shadow=0,Bold=0,MarginV=10,Alignment=2".

(** ** The upload as multer stores it *)

(** [req.file]: the fields of multer's disk storage that [server.js]
    reads. *)
Record File := mkFile {
  originalname : string;
  filename : string;
  file_path : string
}.

(** The [filename] callback: [Date.now() + '-' + file.originalname]. *)
Definition storage_filename (now : Z) (original : string) : string :=
  template [pretty now; "-"; original].

(** multer's disk storage puts the file at [path.join(destination, filename)],
    the destination being [UPLOADS_DIR]. *)
Definition stored (now : Z) (original : string) : File :=
  let name := storage_filename now original in
  mkFile original name (path.join [UPLOADS_DIR; name]).

(** ** The paths and command lines of a job ([processVideo], lines 88-93,
    103, 116, 120, 127-128, 141, 152) *)

Definition jobId (filePath : string) : string :=
  path.basename filePath (path.extname filePath).

Definition audioFile (filePath : string) : string :=
  path.join [UPLOADS_DIR; template [jobId filePath; ".wav"]].

Definition finalVideoName (filePath : string) : string :=
  template ["subtitled_"; jobId filePath; ".mp4"].

Definition finalVideo (filePath : string) : string :=
  path.join [OUTPUT_DIR; finalVideoName filePath].

Definition generatedSrt (filePath : string) : string :=
  path.join [OUTPUT_DIR; template [jobId filePath; ".srt"]].

Definition localSrtName (filePath : string) : string :=
  template ["temp_"; jobId filePath; ".srt"].

Definition localSrt (filePath : string) : string :=
  path.join [__dirname; localSrtName filePath].

Definition downloadUrl (filePath : string) : string :=
  template ["/download/"; finalVideoName filePath].

Definition extractCmd (filePath : string) : string :=
  template [dq; ffmpegPath; dq; " -y -i "; dq; filePath; dq;
            " -ar 16000 -ac 1 -c:a pcm_s16le "; dq; audioFile filePath; dq].

Definition whisperCmd (filePath : string) : string :=
  template ["whisper "; dq; audioFile filePath; dq;
            " --model base --output_format srt --output_dir "; dq; OUTPUT_DIR; dq].

Definition burnCmd (filePath : string) : string :=
  template [dq; ffmpegPath; dq; " -y -i "; dq; filePath; dq;
            " -vf "; dq; "subtitles='"; localSrtName filePath;
            "':force_style='"; style; "'"; dq; " "; dq; finalVideo filePath; dq].

Definition error_line (message : string) : string :=
  template ["❌ Error: "; message].

(** ** [runCommand], [processVideo] and the upload endpoint *)

Section Server.

(** What running a command line does: the result [exec] reports and the
    files that exist afterwards. *)
Variable exec_oracle : string → gset string → ExecResult * gset string.

Definition exec (command : string) : Js ExecResult :=
  λ w, let '(r, fs) := exec_oracle command (files w) in
       (Return r, add_invocation (mkInvocation command r fs) (set_files fs w)).

(** [runCommand(command, socket)]: the promise resolves with the output,
    or rejects with the error after a log line to the socket, if any. *)
Definition runCommand (command : string) (socket : option Socket) : Js string :=
  r ← exec command;
  match r with
  | ExecFailed message =>
      match socket with
      | Some _ => emit socket (EvLog (error_line message))
      | None => mret tt
      end;;
      throw (ExecError message)
  | ExecOk stdout => mret stdout
  end.

(** [cleanup] of [processVideo] (lines 95-97). *)
Definition cleanup (filePath : string) : Js unit :=
  b ← existsSync (audioFile filePath);
  if b : bool then unlinkSync (audioFile filePath) else mret tt.

(** The [try] block of [processVideo] (lines 100-155).  Lines 111-114 only
    run on Windows ([isWin]); they change [process.env.PATH] and nothing
    else. *)
Definition processVideo_try (filePath originalName : string)
    (socket : option Socket) : Js unit :=
  (* Step 1: Extract Audio *)
  emit socket (EvLog "🎵 Step 1: Extracting audio...");;
  emit socket (EvProgress 10);;
  runCommand (extractCmd filePath) socket;;
  emit socket (EvLog "✅ Audio extracted.");;
  (* Step 2: Transcribe (Whisper) *)
  emit socket (EvLog "🧠 Step 2: Generating subtitles (Whisper)...");;
  emit socket (EvProgress 30);;
  runCommand (whisperCmd filePath) socket;;
  emit socket (EvLog "✅ Subtitles generated.");;
  (* Step 3: Burn Subtitles *)
  emit socket (EvLog "🎥 Step 3: Burning subtitles into video...");;
  emit socket (EvProgress 60);;
  b ← existsSync (generatedSrt filePath);
  (if b : bool then copyFileSync (generatedSrt filePath) (localSrt filePath)
   else throw (Error "SRT file was not generated."));;
  runCommand (burnCmd filePath) socket;;
  (* Cleanup temp srt *)
  b' ← existsSync (localSrt filePath);
  (if b' : bool then unlinkSync (localSrt filePath) else mret tt);;
  emit socket (EvLog "✅ Video processing complete!");;
  emit socket (EvProgress 100);;
  emit socket (EvComplete (downloadUrl filePath));;
  cleanup filePath.

(** The [catch] block of [processVideo] (lines 157-161);
    [console.error(err)] is recorded by the error's message. *)
Definition processVideo_catch (socket : option Socket) (err : JsError) : Js unit :=
  console_log (err_message err);;
  emit socket (EvError (err_message err));;
  emit socket (EvLog (error_line (err_message err))).

Definition processVideo (filePath originalName : string)
    (socket : option Socket) : Js unit :=
  try_catch (processVideo_try filePath originalName socket)
            (processVideo_catch socket).

(** [req] of the upload endpoint: [req.file] (absent when the request
    carried no file) and [req.body.socketId]. *)
Record Request := mkRequest {
  req_file : option File;
  req_socketId : string
}.

(** [res.status(code).json(body)]; [res.json(body)] has status 200. *)
Record Response := mkResponse {
  status : Z;
  body : list (string * string)
}.

(** [app.post('/upload', ...)] (lines 165-183).  [sockets] is
    [io.sockets.sockets], the connected clients by id.  The job started
    in the background is run to its end before the response is returned:
    the response does not depend on it. *)
Definition post_upload (sockets : gmap string Socket) (req : Request) : Js Response :=
  match req_file req with
  | None => mret (mkResponse 400 [("error", "No file uploaded")])
  | Some file =>
      let socketId := req_socketId req in
      let socket := sockets !! socketId in
      match socket with
      | None => console_log (template ["Socket not found for ID: "; socketId])
      | Some _ => emit socket (EvLog "🚀 Received file. Starting process...")
      end;;
      spawn (processVideo (file_path file) (originalname file) socket);;
      mret (mkResponse 200 [("message", "Upload successful, processing started");
                            ("jobId", filename file)])
  end.

End Server.

(** ** How the shell reads a command line

    [child_process.exec] hands the command line to [/bin/sh -c].  [sh.words]
    is the word splitting of a simple command as POSIX specifies it: blanks
    separate words; inside double quotes only the backslash, the dollar
    sign, the backquote and the double quote are special; inside single
    quotes nothing is; a backslash before a newline goes away with it.
    The result is [None] when the line is more than a
    list of words (an expansion, an operator, an open quote). *)
Module sh.

Inductive mode := Unquoted | DoubleQuoted | SingleQuoted.

Definition is_blank (c : ascii) : bool :=
  Ascii.eqb c " " || Ascii.eqb c (ascii_of_nat 9).

(** Characters that start an expansion or are operators outside quotes. *)
Definition is_meta (c : ascii) : bool :=
  existsb (Ascii.eqb c)
    (chars "$`;&|<>()*?[#~" ++ [ascii_of_nat 10]).

Definition is_dquote (c : ascii) : bool := Ascii.eqb c (ascii_of_nat 34).
Definition is_squote (c : ascii) : bool := Ascii.eqb c "'".
Definition is_backslash (c : ascii) : bool := Ascii.eqb c "\".
Definition is_newline (c : ascii) : bool := Ascii.eqb c (ascii_of_nat 10).

(** What keeps a character from standing for itself in double quotes. *)
Definition dq_special (c : ascii) : bool :=
  is_dquote c || is_backslash c || Ascii.eqb c "$" || Ascii.eqb c "`".

(** The word being read; [None] between two words. *)
Definition word_of (cur : option (list ascii)) : list ascii :=
  default [] cur.

Definition close_word (cur : option (list ascii))
    (rest : option (list string)) : option (list string) :=
  match cur with
  | Some w => cons (str w) <$> rest
  | None => rest
  end.

Fixpoint scan (m : mode) (cur : option (list ascii)) (l : list ascii)
    : option (list string) :=
  match l with
  | [] =>
      match m with
      | Unquoted => close_word cur (Some [])
      | _ => None
      end
  | c :: l' =>
      match m with
      | Unquoted =>
          if is_blank c then close_word cur (scan Unquoted None l')
          else if is_dquote c then scan DoubleQuoted (Some (word_of cur)) l'
          else if is_squote c then scan SingleQuoted (Some (word_of cur)) l'
          else if is_backslash c then
            match l' with
            | c2 :: l'' =>
                if is_newline c2 then scan Unquoted cur l''
                else scan Unquoted (Some (word_of cur ++ [c2])) l''
            | [] => None
            end
          else if is_meta c then None
          else scan Unquoted (Some (word_of cur ++ [c])) l'
      | DoubleQuoted =>
          if is_dquote c then scan Unquoted cur l'
          else if is_backslash c then
            match l' with
            | c2 :: l'' =>
                if is_newline c2 then scan DoubleQuoted cur l''
                else if dq_special c2
                then scan DoubleQuoted (Some (word_of cur ++ [c2])) l''
                else scan DoubleQuoted (Some (word_of cur ++ [c])) l'
            | [] => None
            end
          else if dq_special c then None
          else scan DoubleQuoted (Some (word_of cur ++ [c])) l'
      | SingleQuoted =>
          if is_squote c then scan Unquoted cur l'
          else scan SingleQuoted (Some (word_of cur ++ [c])) l'
      end
  end.

(** The argument vector of a command line. *)
Definition words (command : string) : option (list string) :=
  scan Unquoted None (chars command).

(** A path whose characters all stand for themselves in double quotes. *)
Definition dq_safe (p : string) : Prop :=
  Forall (λ c, dq_special c = false) (chars p).

End sh.

(** Every path of [paths] reaches the process as one whole argument. *)
Definition whole_arguments (command : string) (paths : list string) : Prop :=
  ∃ argv, sh.words command = Some argv ∧ ∀ p, p ∈ paths → p ∈ argv.

(** ** Reading the traces *)

Definition progress_of (evs : list (Socket * Event)) : list Z :=
  omap (λ x, match x.2 with EvProgress n => Some n | _ => None end) evs.

Definition errors_of (evs : list (Socket * Event)) : list string :=
  omap (λ x, match x.2 with EvError m => Some m | _ => None end) evs.

Definition completions_of (evs : list (Socket * Event)) : list string :=
  omap (λ x, match x.2 with EvComplete u => Some u | _ => None end) evs.

Definition commands_of (invs : list Invocation) : list string :=
  inv_command <$> invs.

(** The error thrown when the subtitle file is missing after the
    transcription (line 133). *)
Definition missing_artifact : JsError := Error "SRT file was not generated.".

(** ** Tools to run the model on *)

(** Tools that work: each of the three commands of the job for [filePath]
    leaves its output file; anything else is not found. *)
Definition working_tools (filePath : string)
    : string → gset string → ExecResult * gset string :=
  λ command fs,
    if bool_decide (command = extractCmd filePath)
    then (ExecOk EmptyString, fs ∪ {[audioFile filePath]})
    else if bool_decide (command = whisperCmd filePath)
    then (ExecOk EmptyString, fs ∪ {[generatedSrt filePath]})
    else if bool_decide (command = burnCmd filePath)
    then (ExecOk EmptyString, fs ∪ {[finalVideo filePath]})
    else (ExecFailed "command not found", fs).

(** The same, with a transcription that reports success and writes nothing. *)
Definition silent_whisper (filePath : string)
    : string → gset string → ExecResult * gset string :=
  λ command fs,
    if bool_decide (command = whisperCmd filePath)
    then (ExecOk EmptyString, fs)
    else working_tools filePath command fs.

(** The same, with a subtitle burner that fails. *)
Definition failing_burn (filePath : string)
    : string → gset string → ExecResult * gset string :=
  λ command fs,
    if bool_decide (command = burnCmd filePath)
    then (ExecFailed "Command failed: ffmpeg", fs)
    else working_tools filePath command fs.

(** No tool installed: every command fails. *)
Definition no_tools : string → gset string → ExecResult * gset string :=
  λ command fs, (ExecFailed "Command failed", fs).

(** The upload of the end-to-end scenario, and the world it arrives in. *)
Definition movie : File := stored 1700000000000 "movie.mp4".

Definition alice : Socket := mkSocket "alice".

Definition fresh_world (fs : gset string) : World :=
  mkWorld fs [] [] [] [] [].

Definition movie_world : World := fresh_world {[ file_path movie ]}.

(** An upload whose name holds a double quote. *)
Definition quoted_name : string := template ["a"; dq; " "; dq; "b.mp4"].
Definition quoted : File := stored 1700000000000 quoted_name.

(** ** The call of [cleanup] *)


(** ** Two sentences of the specification, as they are written *)


(** "Every path passed to a subprocess command is quoted as a whole
    argument": each path that a command line holds between double quotes is
    one argument of the process. *)
Definition paths_are_whole_arguments (filePath : string) : Prop :=
  whole_arguments (extractCmd filePath) [filePath; audioFile filePath] ∧
  whole_arguments (whisperCmd filePath) [audioFile filePath; OUTPUT_DIR] ∧
  whole_arguments (burnCmd filePath) [filePath; finalVideo filePath].

(** ** The rest of [server.js]: start-up and the front-end route *)

Definition eexist (p : string) : JsError :=
  Error (template ["EEXIST: file already exists, mkdir '"; p; "'"]).

(** [fs.mkdirSync(p)]: fails when [p] exists, and when the directory that
    is to hold it does not. *)
Definition mkdirSync (p : string) : Js unit :=
  λ w, if bool_decide (p ∈ files w) then (Throw (eexist p), w)
       else if bool_decide (path.join [p; ".."] ∈ files w)
       then (Return tt, set_files (files w ∪ {[p]}) w)
       else (Throw (enoent "mkdir" p), w).

(** "Ensure directories exist" (lines 27-28). *)
Definition ensure_directories : Js unit :=
  b ← existsSync UPLOADS_DIR;
  (if b : bool then mret tt else mkdirSync UPLOADS_DIR);;
  b' ← existsSync OUTPUT_DIR;
  if b' : bool then mret tt else mkdirSync OUTPUT_DIR.

Definition FRONTEND_DIST : string := path.join [__dirname; "../frontend/dist"].

(** The handler of [app.get('*', ...)] (lines 38-42): the file it sends, or
    [None] when it returns without answering. *)
Definition frontend_fallback (reqPath : string) : option string :=
  if String.prefix "/download" reqPath || String.prefix "/upload" reqPath
  then None
  else Some (path.join [FRONTEND_DIST; "index.html"]).

(** A segment that [path.normalize] keeps as it is. *)
Definition plain_segment (s : list ascii) : Prop :=
  s ≠ [] ∧ s ≠ [path.dot] ∧ s ≠ [path.dot; path.dot] ∧
  Forall (λ c, c ≠ path.slash) s.

(** Text without ["/"], as the name of an upload is once busboy has cut
    the directories off. *)
Definition no_slash (s : string) : Prop := Forall (λ c, c ≠ path.slash) (chars s).
Definition no_dot (s : string) : Prop := Forall (λ c, c ≠ path.dot) (chars s).

(** The characters of a printed number. *)
Definition numeric (c : ascii) : Prop := c ∈ chars "0123456789-".

(** What a job adds to the traces of the world it starts in. *)
Definition events_since (w0 wf : World) : list (Socket * Event) :=
  drop (List.length (emitted w0)) (emitted wf).
Definition invocations_since (w0 wf : World) : list Invocation :=
  drop (List.length (invocations w0)) (invocations wf).
Definition unlinked_since (w0 wf : World) : list string :=
  drop (List.length (unlinked w0)) (unlinked wf).

(** The files on disk when the last tool of a job had ended; the files the
    job started with when it ran none. *)
Definition files_after_tools (w0 wf : World) : gset string :=
  default (files w0) (inv_files <$> last (invocations_since w0 wf)).

(** * Properties *)

Example join_ex1 : path.join ["/app"; "uploads"] = "/app/uploads".
Proof. reflexivity. Qed.
Example join_ex2 : path.join ["/app/"; "../frontend/dist"] = "/frontend/dist".
Proof. reflexivity. Qed.
Example join_ex3 : path.join ["a"; ""; "./b/"; ".."; ".."; ".."; "c/"] = "../c/".
Proof. reflexivity. Qed.
Example extname_ex1 : path.extname "/app/uploads/17-movie.final.mp4" = ".mp4".
Proof. reflexivity. Qed.
Example extname_ex2 : path.extname "/app/.bashrc" = EmptyString.
Proof. reflexivity. Qed.
Example extname_ex3 : path.extname "/app/.." = EmptyString.
Proof. reflexivity. Qed.
Example extname_ex4 : path.extname "/app/a./" = ".".
Proof. reflexivity. Qed.
Example basename_ex1 : path.basename "/app/uploads/17-movie.mp4" ".mp4" = "17-movie".
Proof. reflexivity. Qed.
Example basename_ex2 : path.basename "/app/.mp4" ".mp4" = ".mp4".
Proof. reflexivity. Qed.

Arguments extractCmd : simpl never.
Arguments whisperCmd : simpl never.
Arguments burnCmd : simpl never.
Arguments audioFile : simpl never.
Arguments generatedSrt : simpl never.
Arguments localSrt : simpl never.
Arguments downloadUrl : simpl never.
Arguments error_line : simpl never.

(** ** The command lines of a job are pairwise different *)

Lemma append_inv_head (a b c : string) : a +:+ b = a +:+ c → b = c.
Proof. induction a as [|x a IH]; cbn; [done|]. intros [= H]. auto. Qed.

Lemma extractCmd_whisperCmd filePath : extractCmd filePath ≠ whisperCmd filePath.
Proof. unfold extractCmd, whisperCmd. cbn. discriminate. Qed.

Lemma burnCmd_whisperCmd filePath : burnCmd filePath ≠ whisperCmd filePath.
Proof. unfold burnCmd, whisperCmd. cbn. discriminate. Qed.

Lemma extractCmd_burnCmd filePath : extractCmd filePath ≠ burnCmd filePath.
Proof.
  unfold extractCmd, burnCmd, template. cbn. intros [= H].
  cbn in H. apply (append_inv_head filePath) in H. cbn in H. discriminate H.
Qed.

(** ** Running the model *)

Ltac unfold_js :=
  unfold processVideo, try_catch, processVideo_try, processVideo_catch,
    runCommand, cleanup, exec, emit, existsSync, unlinkSync, copyFileSync,
    console_log, throw, spawn, mbind, mret, Js_mbind, Js_mret, Js_bind, Js_ret.

Ltac step_js :=
  match goal with
  | |- context [let '(_, _) := ?o ?c ?f in _] =>
      destruct (o c f) as [[?|?] ?] eqn:?
  | |- context [bool_decide (?p ∈ ?f)] => destruct (bool_decide (p ∈ f)) eqn:?
  end;
  try match goal with
      | H : false = true |- _ => discriminate H
      | H : true = false |- _ => discriminate H
      end;
  cbn.

Ltac run_js := unfold_js; cbn; repeat step_js.


(** Membership in the explicit trace of a run, one entry at a time. *)
Ltac split_elem H :=
  repeat match type of H with
         | _ ∈ _ :: _ => apply elem_of_cons in H as [H|H]
         end;
  try match type of H with
      | _ ∈ [] => apply elem_of_nil in H; destruct H
      end.

Ltac trace_eq H :=
  rewrite <- ?app_assoc in H; cbn in H; apply app_inv_head in H; subst.

(** C6.  If the audio-extraction command of a job fails, that command is
    the only one the job runs (no transcription, no burn), and the job emits
    exactly one [error] event, with the tool's message. *)
Theorem extraction_failure_stops_pipeline oracle filePath originalName socket w0 :
  ∀ invs message fs,
    invocations (processVideo oracle filePath originalName socket w0).2
      = invocations w0 ++ invs →
    mkInvocation (extractCmd filePath) (ExecFailed message) fs ∈ invs →
    commands_of invs = [extractCmd filePath] ∧
    ∃ evs, emitted (processVideo oracle filePath originalName socket w0).2
             = emitted w0 ++ evs ∧
           errors_of evs = [message].
Proof.
  destruct socket as [s|]; run_js; intros invs msg fs' Hinv Hin.
  all: try (rewrite <- (app_nil_r (invocations w0)) in Hinv at 1).
  all: trace_eq Hinv; split_elem Hin; try discriminate Hin.
  all: try (exfalso; apply (f_equal inv_command) in Hin; cbn in Hin; first
         [ exact (extractCmd_whisperCmd _ Hin)
         | exact (extractCmd_burnCmd _ Hin) ]).
  apply (f_equal inv_result) in Hin. cbn in Hin. injection Hin as ->.
  split; [reflexivity|].
  rewrite <- ?app_assoc. cbn. eexists. split; [reflexivity|]. reflexivity.
Qed.

(** ** The successful run, in full *)

Lemma processVideo_try_returns oracle filePath originalName socket w0 wf :
  processVideo_try oracle filePath originalName socket w0 = (Return tt, wf) →
  ∃ s fs,
    socket = Some s ∧
    files wf = fs ∖ {[localSrt filePath]} ∖ {[audioFile filePath]} ∧
    commands_of (invocations wf)
      = commands_of (invocations w0)
        ++ [extractCmd filePath; whisperCmd filePath; burnCmd filePath] ∧
    emitted wf
      = emitted w0 ++
        [(s, EvLog "🎵 Step 1: Extracting audio...");
         (s, EvProgress 10);
         (s, EvLog "✅ Audio extracted.");
         (s, EvLog "🧠 Step 2: Generating subtitles (Whisper)...");
         (s, EvProgress 30);
         (s, EvLog "✅ Subtitles generated.");
         (s, EvLog "🎥 Step 3: Burning subtitles into video...");
         (s, EvProgress 60);
         (s, EvLog "✅ Video processing complete!");
         (s, EvProgress 100);
         (s, EvComplete (downloadUrl filePath))].
Proof.
  destruct socket as [s|]; run_js.
  all: try discriminate.
  all: intros [= <-]; exists s; cbn.
  all: match goal with
       | H : _ (burnCmd _) _ = (_, ?g) |- _ => exists g
       end.
  all: unfold commands_of; rewrite ?fmap_app, <- ?app_assoc; cbn.
  all: repeat match goal with
         | H : bool_decide (_ ∈ _) = true |- _ => apply bool_decide_eq_true in H
         | H : bool_decide (_ ∈ _) = false |- _ => apply bool_decide_eq_false in H
         end.
  all: repeat split; try reflexivity; set_solver.
Qed.


(** C5.  If the transcription command of a job succeeds and no file exists
    at [generatedSrt] ([<outputs>/<id>.srt]) when it has ended, the pipeline
    fails with the missing-artifact error, the burn command is never run, and
    the job ends with the [error] event and its mirrored [log] event. *)
Theorem missing_subtitle_fails_before_burn oracle filePath originalName socket w0 :
  ∀ invs out fs,
    invocations (processVideo oracle filePath originalName socket w0).2
      = invocations w0 ++ invs →
    mkInvocation (whisperCmd filePath) (ExecOk out) fs ∈ invs →
    generatedSrt filePath ∉ fs →
    (∃ w1, processVideo_try oracle filePath originalName socket w0
             = (Throw missing_artifact, w1)) ∧
    (burnCmd filePath ∉ commands_of invs) ∧
    (processVideo oracle filePath originalName socket w0).1 = Return tt ∧
    ∃ s evs, socket = Some s ∧
      emitted (processVideo oracle filePath originalName socket w0).2
        = emitted w0 ++ evs ++
            [(s, EvError "SRT file was not generated.");
             (s, EvLog "❌ Error: SRT file was not generated.")] ∧
      errors_of evs = [] ∧ completions_of evs = [].
Proof.
  destruct socket as [s|]; run_js; intros invs out fs' Hinv Hin Hsrt.
  all: try (rewrite <- (app_nil_r (invocations w0)) in Hinv at 1).
  all: trace_eq Hinv; split_elem Hin; try discriminate Hin.
  all: try (exfalso; apply (f_equal inv_command) in Hin; cbn in Hin; first
         [ exact (extractCmd_whisperCmd _ (eq_sym Hin))
         | exact (burnCmd_whisperCmd _ (eq_sym Hin)) ]).
  all: apply (f_equal inv_files) in Hin; cbn in Hin; subst.
  all: try match goal with
       | H : bool_decide (_ ∈ _) = true |- _ =>
           apply bool_decide_eq_true in H; contradiction
       end.
  split; [eexists; reflexivity|]. split.
  { cbn. intros Hb. split_elem Hb.
    - exact (extractCmd_burnCmd _ (eq_sym Hb)).
    - exact (burnCmd_whisperCmd _ Hb). }
  split; [reflexivity|]. rewrite <- ?app_assoc. cbn.
  exists s, [(s, EvLog "🎵 Step 1: Extracting audio...");
             (s, EvProgress 10);
             (s, EvLog "✅ Audio extracted.");
             (s, EvLog "🧠 Step 2: Generating subtitles (Whisper)...");
             (s, EvProgress 30);
             (s, EvLog "✅ Subtitles generated.");
             (s, EvLog "🎥 Step 3: Burning subtitles into video...");
             (s, EvProgress 60)].
  repeat split; reflexivity.
Qed.

(** C7.  The progress events of a job are emitted in non-decreasing order,
    whatever the tools do and whether a subscriber is attached or not; when
    the pipeline runs to its end they are exactly 10, 30, 60, 100. *)
Theorem progress_is_monotone :
  (∀ oracle filePath originalName socket w0,
     ∃ evs, emitted (processVideo oracle filePath originalName socket w0).2
              = emitted w0 ++ evs ∧
            Sorted Z.le (progress_of evs)) ∧
  (∀ oracle filePath originalName socket w0 wf,
     processVideo_try oracle filePath originalName socket w0 = (Return tt, wf) →
     processVideo oracle filePath originalName socket w0 = (Return tt, wf) ∧
     ∃ evs, emitted wf = emitted w0 ++ evs ∧
            progress_of evs = [10; 30; 60; 100]%Z).
Proof.
  split.
  - intros oracle filePath originalName [s|] w0.
    + run_js.
      all: rewrite <- ?app_assoc; cbn; eexists; (split; [reflexivity|]); cbn.
      all: repeat constructor; lia.
    + run_js. exists []. rewrite app_nil_r. split; [reflexivity | constructor].
  - intros oracle filePath originalName [s|] w0 wf; run_js.
    all: try discriminate.
    all: intros [= <-]; (split; [reflexivity|]).
    all: cbn; rewrite <- ?app_assoc; cbn; eexists; (split; [reflexivity|]); reflexivity.
Qed.

(** C9 (fails on the code).  With a subscriber, a job whose pipeline throws
    emits the [error] event and the log line ["❌ Error: " + message] and
    its promise resolves: the error is not raised again.  Without a
    subscriber the pipeline throws at once, the [catch] block emits nothing
    and throws in its turn: the error is raised again.  In neither case does
    a failing job remove a file: [cleanup] runs on the success path only,
    and the intermediate files stay on disk, as they do when the burn fails
    in the end-to-end scenario. *)
Theorem failed_job_reports_only_to_subscriber :
  (∀ oracle filePath originalName s w0 e w1,
     processVideo_try oracle filePath originalName (Some s) w0 = (Throw e, w1) →
     processVideo oracle filePath originalName (Some s) w0
     = (Return tt,
        add_emitted (s, EvLog (template ["❌ Error: "; err_message e]))
          (add_emitted (s, EvError (err_message e))
             (add_console (err_message e) w1)))) ∧
  (∀ oracle filePath originalName w0,
     processVideo_try oracle filePath originalName None w0 = (Throw undefined_emit, w0) ∧
     (processVideo oracle filePath originalName None w0).1 = Throw undefined_emit ∧
     emitted (processVideo oracle filePath originalName None w0).2 = emitted w0) ∧
  (∀ oracle filePath originalName socket w0 e w1,
     processVideo_try oracle filePath originalName socket w0 = (Throw e, w1) →
     unlinked (processVideo oracle filePath originalName socket w0).2 = unlinked w0 ∧
     files (processVideo oracle filePath originalName socket w0).2 = files w1) ∧
  (let p := file_path movie in
   let r := processVideo (failing_burn p) p "movie.mp4" (Some alice) movie_world in
   r.1 = Return tt ∧ audioFile p ∈ files r.2 ∧ localSrt p ∈ files r.2).
Proof.
  split; [|split; [|split]].
  - intros oracle filePath originalName s w0 e w1; run_js.
    all: try discriminate.
    all: intros [= <- <-]; reflexivity.
  - intros oracle filePath originalName w0. repeat split; reflexivity.
  - intros oracle filePath originalName [s|] w0 e w1; run_js.
    all: try discriminate.
    all: intros [= <- <-]; split; reflexivity.
  - cbv zeta. split; [vm_compute; reflexivity|].
    split; apply (bool_decide_unpack _); vm_compute; exact I.
Qed.

(** C1 (fails on the code).  With no subscriber ([socket] is [undefined])
    the first [socket.emit] of the [try] block throws a [TypeError], and so
    does the first [socket.emit] of the [catch] block: the promise of
    [processVideo] rejects, no tool is run, and the upload endpoint leaves
    an unhandled rejection behind. *)
Theorem job_without_subscriber_rejects oracle filePath originalName w0 :
  processVideo_try oracle filePath originalName None w0 = (Throw undefined_emit, w0) ∧
  processVideo oracle filePath originalName None w0
    = (Throw undefined_emit, add_console (err_message undefined_emit) w0) ∧
  ∀ file socketId,
    post_upload oracle ∅ (mkRequest (Some file) socketId) w0
    = (Return (mkResponse 200 [("message", "Upload successful, processing started");
                               ("jobId", filename file)]),
       add_unhandled undefined_emit
         (add_console (err_message undefined_emit)
            (add_console (template ["Socket not found for ID: "; socketId]) w0))).
Proof.
  split; [reflexivity|]. split; [reflexivity|].
  intros file socketId. unfold post_upload. cbn -[template]. rewrite lookup_empty.
  reflexivity.
Qed.

(** C2 (fails on the code).  The acknowledgement of an upload carries, as
    [jobId], the stored filename as it is, extension included; for the
    stored file [1700000000000-movie.mp4] it differs from the job id
    [1700000000000-movie] that [processVideo] derives. *)
Theorem upload_ack_carries_stored_filename :
  (∀ oracle sockets file socketId w0,
     (post_upload oracle sockets (mkRequest (Some file) socketId) w0).1
     = Return (mkResponse 200 [("message", "Upload successful, processing started");
                               ("jobId", filename file)])) ∧
  filename movie = "1700000000000-movie.mp4" ∧
  jobId (file_path movie) = "1700000000000-movie" ∧
  filename movie ≠ jobId (file_path movie).
Proof.
  split.
  - intros oracle sockets file socketId w0. unfold post_upload. cbn -[template processVideo].
    destruct (sockets !! socketId) as [s|]; unfold mbind, Js_mbind, Js_bind, spawn, emit,
      console_log; cbn -[template processVideo].
    all: match goal with
         | |- context [processVideo ?o ?p ?n ?s ?w] =>
             destruct (processVideo o p n s w) as [[[]|?] ?]
         end; reflexivity.
  - split; [reflexivity|]. split; [reflexivity|]. vm_compute. discriminate.
Qed.

(** C10.  [processVideo] does the same for any two values of its
    [originalName] argument, and so does the upload endpoint for two
    uploads stored under the same name and path: the original filename
    reaches the job through the stored filename only. *)
Theorem original_name_is_ignored :
  (∀ oracle filePath name1 name2 socket w,
     processVideo oracle filePath name1 socket w
     = processVideo oracle filePath name2 socket w) ∧
  (∀ oracle sockets name1 name2 stored_name stored_path socketId w,
     post_upload oracle sockets
       (mkRequest (Some (mkFile name1 stored_name stored_path)) socketId) w
     = post_upload oracle sockets
       (mkRequest (Some (mkFile name2 stored_name stored_path)) socketId) w).
Proof. split; reflexivity. Qed.





(** C8.  For the stored file [1700000000000-movie.mp4] the job id is
    [1700000000000-movie], the rendered video is
    [outputs/subtitled_1700000000000-movie.mp4] under the server's directory,
    and the [complete] event of a job that runs to its end carries
    [/download/subtitled_1700000000000-movie.mp4]. *)
Theorem end_to_end_movie :
  filename movie = "1700000000000-movie.mp4" ∧
  jobId (file_path movie) = "1700000000000-movie" ∧
  finalVideo (file_path movie)
    = path.join [__dirname; "outputs/subtitled_1700000000000-movie.mp4"] ∧
  finalVideo (file_path movie) = "/app/outputs/subtitled_1700000000000-movie.mp4" ∧
  ∀ oracle originalName socket w0 wf,
    processVideo_try oracle (file_path movie) originalName socket w0 = (Return tt, wf) →
    ∃ s evs, socket = Some s ∧ emitted wf = emitted w0 ++ evs ∧
      completions_of evs = ["/download/subtitled_1700000000000-movie.mp4"].
Proof.
  repeat (split; [reflexivity|]).
  intros oracle originalName socket w0 wf Hrun.
  apply processVideo_try_returns in Hrun as (s & fs & -> & _ & _ & ->).
  exists s. eexists. split; [reflexivity|]. split; reflexivity.
Qed.

(** ** Characters of the derived paths

    Whatever holds of every character of the stored path, of ["/"] and of
    ["."], holds of every character of the paths derived from it. *)

Lemma chars_str l : chars (str l) = l.
Proof. apply list_ascii_of_string_of_list_ascii. Qed.

Lemma str_chars s : str (chars s) = s.
Proof. apply string_of_list_ascii_of_string. Qed.

Lemma chars_append a b : chars (a +:+ b) = chars a ++ chars b.
Proof. unfold chars. induction a as [|c a IH]; cbn; [done|]. by rewrite <- IH. Qed.

Lemma chars_template parts : chars (template parts) = List.concat (chars <$> parts).
Proof.
  induction parts as [|p parts IH]; [done|].
  cbn [template foldr]. rewrite chars_append. cbn. f_equal. exact IH.
Qed.

Section Characters.

Variable P : ascii → Prop.
Hypothesis P_slash : P path.slash.
Hypothesis P_dot : P path.dot.

Lemma Forall_drop_slashes r : Forall P r → Forall P (path.drop_slashes r).
Proof.
  induction 1 as [|c r Hc Hr IH]; cbn; [constructor|].
  destruct (path.is_slash c); [exact IH | by constructor].
Qed.

Lemma Forall_take_segment r : Forall P r → Forall P (path.take_segment r).
Proof.
  induction 1 as [|c r Hc Hr IH]; cbn; [constructor|].
  destruct (path.is_slash c); by constructor.
Qed.

Lemma Forall_last_segment_rev p : Forall P p → Forall P (path.last_segment_rev p).
Proof.
  intros Hp. apply Forall_take_segment, Forall_drop_slashes.
  by apply Forall_reverse.
Qed.

Lemma Forall_strip_suffix_rev sfx seg rest :
  path.strip_suffix_rev sfx seg = Some rest → Forall P seg → Forall P rest.
Proof.
  revert seg. induction sfx as [|a sfx IH]; intros [|b seg]; cbn; try discriminate.
  - by intros [= <-].
  - by intros [= <-].
  - destruct (bool_decide (a = b)); [|discriminate].
    intros Hs Hseg. apply (IH seg Hs). by inversion Hseg.
Qed.

Lemma Forall_basename_chars p sfx : Forall P p → Forall P (path.basename_chars p sfx).
Proof.
  intros Hp. pose proof (Forall_last_segment_rev p Hp) as Hseg.
  unfold path.basename_chars. destruct sfx as [|a sfx]; [by apply Forall_reverse|].
  destruct (bool_decide (a :: sfx = p)); [constructor|].
  destruct (path.strip_suffix_rev _ _) as [rest|] eqn:Hs; [|by apply Forall_reverse].
  pose proof (Forall_strip_suffix_rev _ _ _ Hs Hseg) as Hrest.
  destruct rest; by apply Forall_reverse.
Qed.

Lemma Forall_split_slash cur l :
  Forall P cur → Forall P l → Forall (Forall P) (path.split_slash cur l).
Proof.
  intros Hcur Hl. revert cur Hcur.
  induction Hl as [|c l Hc Hl IH]; intros cur Hcur; cbn.
  - constructor; [by apply Forall_reverse | constructor].
  - destruct (path.is_slash c).
    + constructor; [by apply Forall_reverse | apply IH; constructor].
    + apply IH. by constructor.
Qed.

Lemma Forall_normalize_segments above acc segs :
  Forall (Forall P) acc → Forall (Forall P) segs →
  Forall (Forall P) (path.normalize_segments above acc segs).
Proof.
  intros Hacc Hsegs. revert acc Hacc.
  induction Hsegs as [|s segs Hs Hsegs IH]; intros acc Hacc; cbn.
  - by apply Forall_reverse.
  - destruct (_ || _); [by apply IH|].
    destruct (bool_decide (s = _)); [|apply IH; by constructor].
    destruct Hacc as [|a acc Ha Hacc].
    + destruct above; apply IH; repeat constructor; done.
    + destruct (bool_decide (a = _)); apply IH; repeat constructor; done.
Qed.

Lemma Forall_join_slash segs : Forall (Forall P) segs → Forall P (path.join_slash segs).
Proof.
  induction 1 as [|s segs Hs Hsegs IH]; cbn; [constructor|].
  destruct segs as [|s' segs]; [done|].
  apply Forall_app. split; [done|]. by constructor.
Qed.

Lemma Forall_normalize_chars p : Forall P p → Forall P (path.normalize_chars p).
Proof.
  intros Hp. unfold path.normalize_chars. destruct p as [|c p]; [by repeat constructor|].
  set (body := path.join_slash _).
  assert (Forall P body) as Hbody.
  { apply Forall_join_slash, Forall_normalize_segments; [constructor|].
    apply Forall_split_slash; [constructor | done]. }
  destruct body as [|b body].
  - destruct (path.is_slash c); [by repeat constructor|].
    destruct (match last _ with Some _ => _ | None => _ end); by repeat constructor.
  - assert (Forall P ((b :: body) ++ [path.slash])) as Hbody'.
    { apply Forall_app. split; [done | by repeat constructor]. }
    destruct (match last _ with Some _ => _ | None => _ end), (path.is_slash c);
      first [assumption | by constructor].
Qed.

Lemma Forall_join args :
  Forall (λ a, Forall P (chars a)) args → Forall P (chars (path.join args)).
Proof.
  intros Hargs. unfold path.join.
  assert (Forall (Forall P) (filter (λ l, l ≠ []) (chars <$> args))) as Hparts.
  { apply Forall_forall. intros l [_ Hl]%list_elem_of_filter.
    apply list_elem_of_fmap in Hl as (a & -> & Ha).
    by apply (proj1 (Forall_forall _ _) Hargs). }
  destruct (filter _ _) as [|l parts]; [by repeat constructor|].
  rewrite chars_str. by apply Forall_normalize_chars, Forall_join_slash.
Qed.

Lemma Forall_jobId filePath : Forall P (chars filePath) → Forall P (chars (jobId filePath)).
Proof.
  intros Hp. unfold jobId, path.basename. rewrite chars_str.
  by apply Forall_basename_chars.
Qed.

End Characters.

(** ** Double-quoted text in a command line *)

Lemma scan_double_quoted s cur rest :
  Forall (λ c, sh.dq_special c = false) s →
  sh.scan sh.DoubleQuoted (Some cur) (s ++ rest)
  = sh.scan sh.DoubleQuoted (Some (cur ++ s)) rest.
Proof.
  intros Hs. revert cur.
  induction Hs as [|c s Hc Hs IH]; intros cur; [by rewrite app_nil_r|].
  cbn [app sh.scan]. pose proof Hc as Hc'. unfold sh.dq_special in Hc'.
  apply orb_false_elim in Hc' as [[[Hq%negb_true_iff Hb]%orb_false_elim _]%orb_false_elim _].
  apply negb_true_iff in Hq. rewrite Hq, Hb, Hc. cbn [sh.word_of default].
  rewrite IH. by rewrite <- app_assoc.
Qed.

Lemma dq_safe_jobId filePath : sh.dq_safe filePath → sh.dq_safe (jobId filePath).
Proof. apply Forall_jobId. Qed.

Lemma dq_safe_template parts : Forall sh.dq_safe parts → sh.dq_safe (template parts).
Proof.
  unfold sh.dq_safe. rewrite chars_template.
  induction 1 as [|p parts Hp Hparts IH]; cbn; [constructor|].
  apply Forall_app. by split.
Qed.

Lemma dq_safe_join args : Forall sh.dq_safe args → sh.dq_safe (path.join args).
Proof. intros Hargs. by apply Forall_join. Qed.

Lemma dq_safe_literal s :
  forallb (λ c, negb (sh.dq_special c)) (chars s) = true → sh.dq_safe s.
Proof.
  unfold sh.dq_safe. rewrite forallb_forall, Forall_forall.
  intros H c Hc. apply negb_true_iff, H. by apply list_elem_of_In.
Qed.

Ltac dq_safe_parts :=
  repeat match goal with
         | |- Forall sh.dq_safe (_ :: _) => apply List.Forall_cons
         | |- Forall sh.dq_safe [] => apply List.Forall_nil
         | |- sh.dq_safe _ => assumption
         | |- sh.dq_safe (jobId _) => apply dq_safe_jobId
         | |- sh.dq_safe (template _) => apply dq_safe_template
         | |- sh.dq_safe (path.join _) => apply dq_safe_join
         | |- sh.dq_safe _ => apply dq_safe_literal; vm_compute; reflexivity
         end.

Lemma dq_safe_audioFile filePath : sh.dq_safe filePath → sh.dq_safe (audioFile filePath).
Proof. intros Hp. unfold audioFile. dq_safe_parts. Qed.

Lemma dq_safe_finalVideo filePath : sh.dq_safe filePath → sh.dq_safe (finalVideo filePath).
Proof. intros Hp. unfold finalVideo, finalVideoName. dq_safe_parts. Qed.

Lemma dq_safe_localSrtName filePath :
  sh.dq_safe filePath → sh.dq_safe (localSrtName filePath).
Proof. intros Hp. unfold localSrtName. dq_safe_parts. Qed.

(** The fixed text of the three command lines, around their paths. *)

Lemma scan_ffmpeg_input rest :
  sh.scan sh.Unquoted None
    (chars dq ++ chars ffmpegPath ++ chars dq ++ chars " -y -i " ++ chars dq ++ rest)
  = cons "ffmpeg" <$> (cons "-y" <$> (cons "-i" <$>
      sh.scan sh.DoubleQuoted (Some []) rest)).
Proof. reflexivity. Qed.

Lemma scan_extract_options cur rest :
  sh.scan sh.DoubleQuoted (Some cur)
    (chars dq ++ chars " -ar 16000 -ac 1 -c:a pcm_s16le " ++ chars dq ++ rest)
  = cons (str cur) <$> (cons "-ar" <$> (cons "16000" <$> (cons "-ac" <$>
      (cons "1" <$> (cons "-c:a" <$> (cons "pcm_s16le" <$>
         sh.scan sh.DoubleQuoted (Some []) rest)))))).
Proof. reflexivity. Qed.

Lemma scan_whisper rest :
  sh.scan sh.Unquoted None (chars "whisper " ++ chars dq ++ rest)
  = cons "whisper" <$> sh.scan sh.DoubleQuoted (Some []) rest.
Proof. reflexivity. Qed.

Lemma scan_whisper_options cur rest :
  sh.scan sh.DoubleQuoted (Some cur)
    (chars dq ++ chars " --model base --output_format srt --output_dir "
       ++ chars dq ++ rest)
  = cons (str cur) <$> (cons "--model" <$> (cons "base" <$>
      (cons "--output_format" <$> (cons "srt" <$> (cons "--output_dir" <$>
         sh.scan sh.DoubleQuoted (Some []) rest))))).
Proof. reflexivity. Qed.

Lemma scan_burn_filter cur rest :
  sh.scan sh.DoubleQuoted (Some cur) (chars dq ++ chars " -vf " ++ chars dq ++ rest)
  = cons (str cur) <$> (cons "-vf" <$> sh.scan sh.DoubleQuoted (Some []) rest).
Proof. reflexivity. Qed.

Lemma scan_burn_output cur rest :
  sh.scan sh.DoubleQuoted (Some cur) (chars dq ++ chars " " ++ chars dq ++ rest)
  = cons (str cur) <$> sh.scan sh.DoubleQuoted (Some []) rest.
Proof. reflexivity. Qed.

Lemma scan_last_quote cur :
  sh.scan sh.DoubleQuoted (Some cur) (chars dq ++ []) = Some [str cur].
Proof. reflexivity. Qed.

(** C4 (fails on the code).  The command lines put every path between
    double quotes and escape nothing.  For an upload named [a" "b.mp4] the
    stored path holds a double quote; the shell cuts the extraction command
    at it, and neither the stored path nor the audio path is an argument of
    the tool. *)
Lemma quote_in_name_splits_argument :
  filename quoted = template ["1700000000000-a"; dq; " "; dq; "b.mp4"] ∧
  sh.words (extractCmd (file_path quoted))
  = Some ["ffmpeg"; "-y"; "-i"; "/app/uploads/1700000000000-a"; "b.mp4";
          "-ar"; "16000"; "-ac"; "1"; "-c:a"; "pcm_s16le";
          "/app/uploads/1700000000000-a"; "b.wav"] ∧
  ¬ paths_are_whole_arguments (file_path quoted).
Proof.
  split; [reflexivity|].
  assert (sh.words (extractCmd (file_path quoted))
          = Some ["ffmpeg"; "-y"; "-i"; "/app/uploads/1700000000000-a"; "b.mp4";
                  "-ar"; "16000"; "-ac"; "1"; "-c:a"; "pcm_s16le";
                  "/app/uploads/1700000000000-a"; "b.wav"]) as Hsplit
    by (vm_compute; reflexivity).
  split; [exact Hsplit|].
  intros [(argv & Hwords & Hargs) _].
  rewrite Hsplit in Hwords. injection Hwords as <-.
  specialize (Hargs (file_path quoted) (list_elem_of_here _ _)).
  revert Hargs. apply (bool_decide_eq_false _). vm_compute. reflexivity.
Qed.

(** X21.  What the double quotes of the command lines do achieve.  When the
    stored path holds no double quote, backslash, dollar sign or backquote,
    the shell hands each double-quoted path of the three command lines to
    the tool as one whole argument; the temporary subtitle name travels
    inside the [-vf] argument, between single quotes. *)
Theorem safe_paths_are_whole_arguments filePath :
  sh.dq_safe filePath →
  finalVideoName filePath = template ["subtitled_"; jobId filePath; ".mp4"] ∧
  sh.words (extractCmd filePath)
  = Some ["ffmpeg"; "-y"; "-i"; filePath; "-ar"; "16000"; "-ac"; "1";
          "-c:a"; "pcm_s16le"; audioFile filePath] ∧
  sh.words (whisperCmd filePath)
  = Some ["whisper"; audioFile filePath; "--model"; "base";
          "--output_format"; "srt"; "--output_dir"; OUTPUT_DIR] ∧
  sh.words (burnCmd filePath)
  = Some ["ffmpeg"; "-y"; "-i"; filePath; "-vf";
          template ["subtitles='"; localSrtName filePath;
                    "':force_style='"; style; "'"];
          finalVideo filePath].
Proof.
  intros Hp.
  pose proof (dq_safe_audioFile _ Hp) as Ha.
  pose proof (dq_safe_finalVideo _ Hp) as Hf.
  pose proof (dq_safe_localSrtName _ Hp) as Hl.
  assert (sh.dq_safe OUTPUT_DIR) as Ho by dq_safe_parts.
  assert (sh.dq_safe "subtitles='") as H1 by dq_safe_parts.
  assert (sh.dq_safe "':force_style='") as H2 by dq_safe_parts.
  assert (sh.dq_safe style) as H3 by dq_safe_parts.
  assert (sh.dq_safe "'") as H4 by dq_safe_parts.
  split; [reflexivity|]. unfold sh.words, extractCmd, whisperCmd, burnCmd.
  rewrite !chars_template. cbn [List.concat fmap list_fmap].
  split; [|split].
  - rewrite scan_ffmpeg_input, (scan_double_quoted _ _ _ Hp), scan_extract_options,
      (scan_double_quoted _ _ _ Ha), scan_last_quote.
    cbn [app]. rewrite !str_chars. reflexivity.
  - rewrite scan_whisper, (scan_double_quoted _ _ _ Ha), scan_whisper_options,
      (scan_double_quoted _ _ _ Ho), scan_last_quote.
    cbn [app]. rewrite !str_chars. reflexivity.
  - rewrite scan_ffmpeg_input, (scan_double_quoted _ _ _ Hp), scan_burn_filter,
      (scan_double_quoted _ _ _ H1), (scan_double_quoted _ _ _ Hl),
      (scan_double_quoted _ _ _ H2), (scan_double_quoted _ _ _ H3),
      (scan_double_quoted _ _ _ H4), scan_burn_output,
      (scan_double_quoted _ _ _ Hf), scan_last_quote.
    cbn [app]. rewrite !str_chars.
    rewrite <- (str_chars (template [_; localSrtName filePath; _; _; _])).
    rewrite chars_template. cbn [List.concat fmap list_fmap].
    rewrite app_nil_r, <- !app_assoc. reflexivity.
Qed.

(** ** The theorems at work on the end-to-end scenario *)

Lemma extraction_failure_witness :
  let p := file_path movie in
  let r := processVideo no_tools p "movie.mp4" (Some alice) movie_world in
  let inv := mkInvocation (extractCmd p) (ExecFailed "Command failed") {[ p ]} in
  invocations r.2 = invocations movie_world ++ [inv] ∧
  inv ∈ [inv] ∧
  commands_of [inv] = [extractCmd p] ∧
  ∃ evs, emitted r.2 = emitted movie_world ++ evs ∧ errors_of evs = ["Command failed"].
Proof.
  cbv zeta.
  assert (invocations
            (processVideo no_tools (file_path movie) "movie.mp4" (Some alice) movie_world).2
          = invocations movie_world
            ++ [mkInvocation (extractCmd (file_path movie)) (ExecFailed "Command failed")
                  {[ file_path movie ]}]) as Hinv by (vm_compute; reflexivity).
  split; [exact Hinv|]. split; [apply list_elem_of_here|].
  exact (extraction_failure_stops_pipeline _ _ _ _ _ _ _ _ Hinv (list_elem_of_here _ _)).
Defined.

Lemma missing_subtitle_witness :
  let p := file_path movie in
  let r := processVideo (silent_whisper p) p "movie.mp4" (Some alice) movie_world in
  let fs : gset string := {[ p ]} ∪ {[ audioFile p ]} in
  invocations r.2 = invocations movie_world ++ invocations r.2 ∧
  invocations r.2 !! 1%nat = Some (mkInvocation (whisperCmd p) (ExecOk EmptyString) fs) ∧
  (generatedSrt p ∉ fs) ∧
  (burnCmd p ∉ commands_of (invocations r.2)) ∧
  r.1 = Return tt.
Proof.
  cbv zeta.
  set (p := file_path movie).
  set (r := processVideo (silent_whisper p) p "movie.mp4" (Some alice) movie_world).
  assert (invocations r.2 = invocations movie_world ++ invocations r.2) as Hinv
    by reflexivity.
  assert (invocations r.2 !! 1%nat
          = Some (mkInvocation (whisperCmd p) (ExecOk EmptyString)
                    ({[ p ]} ∪ {[ audioFile p ]}))) as Hin
    by (vm_compute; reflexivity).
  assert (generatedSrt p ∉ ({[ p ]} ∪ {[ audioFile p ]} : gset string)) as Hsrt
    by (apply (bool_decide_eq_false _); vm_compute; reflexivity).
  split; [exact Hinv|]. split; [exact Hin|]. split; [exact Hsrt|].
  destruct (missing_subtitle_fails_before_burn (silent_whisper p) p "movie.mp4"
              (Some alice) movie_world _ _ _ Hinv (list_elem_of_lookup_2 _ _ _ Hin) Hsrt)
    as (_ & Hburn & Hret & _).
  split; [exact Hburn | exact Hret].
Defined.

Lemma progress_witness :
  let p := file_path movie in
  let r := processVideo_try (working_tools p) p "movie.mp4" (Some alice) movie_world in
  r = (Return tt, r.2) ∧
  ∃ evs, emitted r.2 = emitted movie_world ++ evs ∧
         progress_of evs = [10; 30; 60; 100]%Z.
Proof.
  cbv zeta.
  assert (processVideo_try (working_tools (file_path movie)) (file_path movie)
            "movie.mp4" (Some alice) movie_world
          = (Return tt,
             (processVideo_try (working_tools (file_path movie)) (file_path movie)
                "movie.mp4" (Some alice) movie_world).2)) as Hrun
    by (vm_compute; reflexivity).
  split; [exact Hrun|].
  exact (proj2 (proj2 progress_is_monotone _ _ _ _ _ _ Hrun)).
Defined.

Lemma failed_job_witness :
  let p := file_path movie in
  let r := processVideo_try (failing_burn p) p "movie.mp4" (Some alice) movie_world in
  let e := ExecError "Command failed: ffmpeg" in
  r = (Throw e, r.2) ∧
  processVideo (failing_burn p) p "movie.mp4" (Some alice) movie_world
  = (Return tt,
     add_emitted (alice, EvLog (template ["❌ Error: "; err_message e]))
       (add_emitted (alice, EvError (err_message e))
          (add_console (err_message e) r.2))).
Proof.
  cbv zeta.
  assert (processVideo_try (failing_burn (file_path movie)) (file_path movie)
            "movie.mp4" (Some alice) movie_world
          = (Throw (ExecError "Command failed: ffmpeg"),
             (processVideo_try (failing_burn (file_path movie)) (file_path movie)
                "movie.mp4" (Some alice) movie_world).2)) as Hrun
    by (vm_compute; reflexivity).
  split; [exact Hrun|].
  exact (proj1 failed_job_reports_only_to_subscriber _ _ _ _ _ _ _ Hrun).
Defined.


Lemma end_to_end_witness :
  let p := file_path movie in
  let r := processVideo_try (working_tools p) p "movie.mp4" (Some alice) movie_world in
  r = (Return tt, r.2) ∧
  ∃ s evs, Some alice = Some s ∧ emitted r.2 = emitted movie_world ++ evs ∧
    completions_of evs = ["/download/subtitled_1700000000000-movie.mp4"].
Proof.
  cbv zeta.
  assert (processVideo_try (working_tools (file_path movie)) (file_path movie)
            "movie.mp4" (Some alice) movie_world
          = (Return tt,
             (processVideo_try (working_tools (file_path movie)) (file_path movie)
                "movie.mp4" (Some alice) movie_world).2)) as Hrun
    by (vm_compute; reflexivity).
  split; [exact Hrun|].
  exact (proj2 (proj2 (proj2 (proj2 end_to_end_movie))) _ _ _ _ _ Hrun).
Defined.

Lemma safe_paths_witness :
  sh.dq_safe (file_path movie) ∧
  sh.words (burnCmd (file_path movie))
  = Some ["ffmpeg"; "-y"; "-i"; file_path movie; "-vf";
          template ["subtitles='"; localSrtName (file_path movie);
                    "':force_style='"; style; "'"];
          finalVideo (file_path movie)].
Proof.
  assert (sh.dq_safe (file_path movie)) as Hsafe
    by (apply (bool_decide_unpack _); vm_compute; exact I).
  split; [exact Hsafe|].
  exact (proj2 (proj2 (proj2 (safe_paths_are_whole_arguments _ Hsafe)))).
Defined.

(** * More of the pipeline *)

Lemma since_app {A} (l k : list A) : drop (List.length l) (l ++ k) = k.
Proof. apply drop_app_length. Qed.

Ltac since_js :=
  unfold events_since, invocations_since, unlinked_since, files_after_tools,
    events_since, invocations_since; cbn;
  rewrite <- ?app_assoc; cbn; rewrite ?since_app, ?drop_all; cbn.

(** X1.  [runCommand] rejects exactly when the tool fails.  It records one
    invocation and leaves the files as the tool left them; a failure is
    logged to the subscriber when there is one, and a missing subscriber
    never makes it throw. *)
Theorem runCommand_outcome oracle command socket w0 :
  let r := runCommand oracle command socket w0 in
  let o := oracle command (files w0) in
  files r.2 = o.2 ∧
  invocations_since w0 r.2 = [mkInvocation command o.1 o.2] ∧
  unlinked r.2 = unlinked w0 ∧ console r.2 = console w0 ∧
  match o.1 with
  | ExecOk stdout => r.1 = Return stdout ∧ events_since w0 r.2 = []
  | ExecFailed message =>
      r.1 = Throw (ExecError message) ∧
      events_since w0 r.2
      = match socket with
        | Some s => [(s, EvLog (error_line message))]
        | None => []
        end
  end.
Proof.
  cbv zeta. unfold_js. cbn.
  destruct (oracle command (files w0)) as [[stdout|message] fs]; cbn.
  - since_js. done.
  - destruct socket as [s|]; since_js; done.
Qed.

(** X2.  The promise of [processVideo] resolves exactly when a subscriber is
    attached, whatever the tools do. *)
Theorem processVideo_resolves_iff_subscriber oracle filePath originalName socket w0 :
  (processVideo oracle filePath originalName socket w0).1 = Return tt
  ↔ is_Some socket.
Proof.
  destruct socket as [s|]; run_js.
  all: split; try (intros _; eauto; reflexivity).
  - discriminate.
  - intros [s Hs]. discriminate.
Qed.

(** X3.  With a subscriber every job ends with exactly one terminal event:
    [complete] when the pipeline ran to its end, [error] with the message
    of what it threw otherwise, never both. *)
Theorem one_terminal_event oracle filePath originalName s w0 :
  let wf := (processVideo oracle filePath originalName (Some s) w0).2 in
  let t := processVideo_try oracle filePath originalName (Some s) w0 in
  match t.1 with
  | Return _ =>
      completions_of (events_since w0 wf) = [downloadUrl filePath] ∧
      errors_of (events_since w0 wf) = []
  | Throw e =>
      completions_of (events_since w0 wf) = [] ∧
      errors_of (events_since w0 wf) = [err_message e]
  end.
Proof.
  cbv zeta. run_js.
  all: since_js; split; reflexivity.
Qed.

(** X4.  The tools of a job run in the order extraction, transcription, burn,
    each at most once, and none after one that was skipped. *)
Theorem commands_in_order oracle filePath originalName socket w0 :
  let wf := (processVideo oracle filePath originalName socket w0).2 in
  commands_of (invocations_since w0 wf)
    `prefix_of` [extractCmd filePath; whisperCmd filePath; burnCmd filePath].
Proof.
  cbv zeta. destruct socket as [s|]; run_js.
  all: since_js.
  all: first [ by eexists [] | by eexists [_] | by eexists [_; _] | by eexists [_; _; _] ].
Qed.

(** X5.  A tool that fails is the last one the job runs.  The subscriber then
    gets the failure logged by [runCommand], the [error] event and the
    same log line once more from the [catch] block, and no [complete]. *)
Theorem failed_tool_ends_job oracle filePath originalName socket w0 :
  let wf := (processVideo oracle filePath originalName socket w0).2 in
  ∀ inv message,
    inv ∈ invocations_since w0 wf →
    inv_result inv = ExecFailed message →
    last (invocations_since w0 wf) = Some inv ∧
    completions_of (events_since w0 wf) = [] ∧
    errors_of (events_since w0 wf) = [message] ∧
    ∃ s, socket = Some s ∧
      drop (List.length (events_since w0 wf) - 3) (events_since w0 wf)
      = [(s, EvLog (error_line message)); (s, EvError message);
         (s, EvLog (error_line message))].
Proof.
  cbv zeta. destruct socket as [s|]; run_js.
  all: since_js; intros inv msg Hin Hres.
  all: split_elem Hin; subst inv; cbn in Hres; try discriminate Hres.
  all: injection Hres as <-.
  all: repeat split; try reflexivity; exists s; split; reflexivity.
Qed.

(** X6.  The pipeline runs to its end exactly when a subscriber is
    attached, the three tools report success in turn and the subtitle file
    exists once the transcription has ended.  Nothing checks that the burn
    wrote the video: the files left are then those the burn left, without
    the two intermediate files. *)
Theorem pipeline_succeeds_iff oracle filePath originalName socket w0 :
  ((∃ wf, processVideo_try oracle filePath originalName socket w0 = (Return tt, wf))
   ↔ ∃ s out1 fs1 out2 fs2 out3 fs3,
       socket = Some s ∧
       oracle (extractCmd filePath) (files w0) = (ExecOk out1, fs1) ∧
       oracle (whisperCmd filePath) fs1 = (ExecOk out2, fs2) ∧
       generatedSrt filePath ∈ fs2 ∧
       oracle (burnCmd filePath) (fs2 ∪ {[localSrt filePath]}) = (ExecOk out3, fs3)) ∧
  (∀ out1 fs1 out2 fs2 out3 fs3,
     is_Some socket →
     oracle (extractCmd filePath) (files w0) = (ExecOk out1, fs1) →
     oracle (whisperCmd filePath) fs1 = (ExecOk out2, fs2) →
     generatedSrt filePath ∈ fs2 →
     oracle (burnCmd filePath) (fs2 ∪ {[localSrt filePath]}) = (ExecOk out3, fs3) →
     files (processVideo_try oracle filePath originalName socket w0).2
     = fs3 ∖ {[localSrt filePath]} ∖ {[audioFile filePath]}).
Proof.
  split; [split|].
  - intros [wf Hrun]. revert Hrun. destruct socket as [s|]; run_js.
    all: try discriminate.
    all: intros _; exists s.
    all: repeat match goal with
           | H : bool_decide (_ ∈ _) = true |- _ => apply bool_decide_eq_true in H
           | H : bool_decide (_ ∈ _) = false |- _ => apply bool_decide_eq_false in H
           end.
    all: do 6 eexists; repeat split; try reflexivity; eassumption.
  - intros (s & out1 & fs1 & out2 & fs2 & out3 & fs3 & -> & H1 & H2 & Hsrt & H3).
    unfold_js. cbn. rewrite H1. cbn. rewrite H2. cbn.
    repeat (rewrite bool_decide_eq_true_2 by exact Hsrt; cbn).
    rewrite H3. cbn.
    repeat step_js.
    all: eexists; reflexivity.
  - intros out1 fs1 out2 fs2 out3 fs3 [s ->] H1 H2 Hsrt H3.
    unfold_js. cbn. rewrite H1. cbn. rewrite H2. cbn.
    repeat (rewrite bool_decide_eq_true_2 by exact Hsrt; cbn).
    rewrite H3. cbn.
    repeat step_js.
    all: repeat match goal with
           | H : bool_decide (_ ∈ _) = true |- _ => apply bool_decide_eq_true in H
           | H : bool_decide (_ ∈ _) = false |- _ => apply bool_decide_eq_false in H
           end.
    all: set_solver.
Qed.

Lemma pipeline_succeeds_witness :
  let p := file_path movie in
  let fs1 : gset string := {[ p ]} ∪ {[ audioFile p ]} in
  let fs2 : gset string := fs1 ∪ {[ generatedSrt p ]} in
  let fs3 : gset string := fs2 ∪ {[ localSrt p ]} ∪ {[ finalVideo p ]} in
  is_Some (Some alice) ∧
  working_tools p (extractCmd p) (files movie_world) = (ExecOk EmptyString, fs1) ∧
  working_tools p (whisperCmd p) fs1 = (ExecOk EmptyString, fs2) ∧
  generatedSrt p ∈ fs2 ∧
  working_tools p (burnCmd p) (fs2 ∪ {[ localSrt p ]}) = (ExecOk EmptyString, fs3) ∧
  files (processVideo_try (working_tools p) p "movie.mp4" (Some alice) movie_world).2
  = fs3 ∖ {[ localSrt p ]} ∖ {[ audioFile p ]}.
Proof.
  cbv zeta.
  set (p := file_path movie).
  set (fs1 := ({[ p ]} ∪ {[ audioFile p ]} : gset string)).
  set (fs2 := (fs1 ∪ {[ generatedSrt p ]} : gset string)).
  set (fs3 := (fs2 ∪ {[ localSrt p ]} ∪ {[ finalVideo p ]} : gset string)).
  assert (is_Some (Some alice)) as H0 by (by exists alice).
  assert (working_tools p (extractCmd p) (files movie_world) = (ExecOk EmptyString, fs1))
    as H1 by (vm_compute; reflexivity).
  assert (working_tools p (whisperCmd p) fs1 = (ExecOk EmptyString, fs2))
    as H2 by (vm_compute; reflexivity).
  assert (generatedSrt p ∈ fs2) as H3
    by (apply (bool_decide_unpack _); vm_compute; exact I).
  assert (working_tools p (burnCmd p) (fs2 ∪ {[ localSrt p ]}) = (ExecOk EmptyString, fs3))
    as H4 by (vm_compute; reflexivity).
  repeat (split; [assumption|]).
  exact (proj2 (pipeline_succeeds_iff (working_tools p) p "movie.mp4" (Some alice)
                  movie_world) _ _ _ _ _ _ H0 H1 H2 H3 H4).
Defined.

(** X7.  What the orchestrator itself does to the disk: it removes nothing but
    the temporary subtitle copy and the audio file, in that order, and
    apart from these two paths the files at the end of a job are those the
    last tool left. *)
Theorem orchestrator_frame oracle filePath originalName socket w0 :
  let wf := (processVideo oracle filePath originalName socket w0).2 in
  unlinked_since w0 wf `sublist_of` [localSrt filePath; audioFile filePath] ∧
  ∀ p, p ≠ localSrt filePath → p ≠ audioFile filePath →
       p ∈ files wf ↔ p ∈ files_after_tools w0 wf.
Proof.
  cbv zeta. destruct socket as [s|]; run_js.
  all: since_js.
  all: repeat match goal with
         | H : bool_decide (_ ∈ _) = true |- _ => apply bool_decide_eq_true in H
         | H : bool_decide (_ ∈ _) = false |- _ => apply bool_decide_eq_false in H
         end.
  all: split; [|intros p Hp1 Hp2; try rewrite last_snoc; cbn; set_solver].
  all: repeat first [ apply sublist_nil | apply sublist_skip; [] | apply sublist_cons
                    | apply sublist_skip ].
Qed.

(** * Where the paths of a job point *)

Lemma str_app a b : str (a ++ b) = str a +:+ str b.
Proof. induction a as [|c a IH]; cbn; [done|]. unfold str in IH. by rewrite IH. Qed.

Lemma append_inv_tail (a b c : string) : a +:+ c = b +:+ c → a = b.
Proof.
  intros H. apply (f_equal chars) in H. rewrite !chars_append in H.
  apply app_inv_tail in H. by rewrite <- (str_chars a), <- (str_chars b), H.
Qed.

Lemma is_slash_false c : c ≠ path.slash → path.is_slash c = false.
Proof. intros H. by apply bool_decide_eq_false_2. Qed.

Lemma is_dot_false c : c ≠ path.dot → path.is_dot c = false.
Proof. intros H. by apply bool_decide_eq_false_2. Qed.

Lemma take_segment_no_slash r : Forall (λ c, c ≠ path.slash) (path.take_segment r).
Proof.
  induction r as [|c r IH]; cbn; [constructor|].
  unfold path.is_slash. case_bool_decide; by constructor.
Qed.

Lemma take_segment_cut r rest :
  Forall (λ c, c ≠ path.slash) r → path.take_segment (r ++ path.slash :: rest) = r.
Proof.
  induction 1 as [|c r Hc Hr IH]; cbn.
  - unfold path.is_slash. by rewrite bool_decide_eq_true_2.
  - rewrite is_slash_false by done. by rewrite IH.
Qed.

Lemma split_slash_no_slash cur l :
  Forall (λ c, c ≠ path.slash) l → path.split_slash cur l = [reverse cur ++ l].
Proof.
  intros Hl. revert cur. induction Hl as [|c l Hc Hl IH]; intros cur; cbn.
  - by rewrite app_nil_r.
  - rewrite is_slash_false, IH by done. by rewrite reverse_cons, <- app_assoc.
Qed.

Lemma split_slash_cut cur l rest :
  Forall (λ c, c ≠ path.slash) l →
  path.split_slash cur (l ++ path.slash :: rest)
  = (reverse cur ++ l) :: path.split_slash [] rest.
Proof.
  intros Hl. revert cur. induction Hl as [|c l Hc Hl IH]; intros cur; cbn.
  - unfold path.is_slash. rewrite bool_decide_eq_true_2 by done. by rewrite app_nil_r.
  - rewrite is_slash_false, IH by done. by rewrite reverse_cons, <- app_assoc.
Qed.

Lemma plain_segment_no_slash s : plain_segment s → Forall (λ c, c ≠ path.slash) s.
Proof. by intros (_ & _ & _ & H). Qed.

Lemma split_join_slash segs :
  segs ≠ [] → Forall plain_segment segs →
  path.split_slash [] (path.join_slash segs) = segs.
Proof.
  intros Hne Hsegs. induction Hsegs as [|s segs Hs Hsegs IH]; [done|].
  destruct segs as [|s' segs].
  - cbn. by rewrite split_slash_no_slash by by apply plain_segment_no_slash.
  - cbn [path.join_slash].
    rewrite split_slash_cut by by apply plain_segment_no_slash.
    rewrite reverse_nil, app_nil_l. f_equal. by apply IH.
Qed.

Lemma normalize_segments_plain above acc segs :
  Forall plain_segment segs →
  path.normalize_segments above acc segs = reverse acc ++ segs.
Proof.
  intros Hsegs. revert acc.
  induction Hsegs as [|s segs (H0 & H1 & H2 & _) Hsegs IH]; intros acc; cbn.
  - by rewrite app_nil_r.
  - rewrite !bool_decide_eq_false_2 by done. cbn.
    by rewrite IH, reverse_cons, <- app_assoc.
Qed.

Lemma join_slash_snoc segs s :
  segs ≠ [] → path.join_slash (segs ++ [s]) = path.join_slash segs ++ path.slash :: s.
Proof.
  induction segs as [|a segs IH]; [done|]. intros _.
  destruct segs as [|b segs]; [done|].
  change (path.join_slash ((a :: b :: segs) ++ [s]))
    with (a ++ path.slash :: path.join_slash ((b :: segs) ++ [s])).
  rewrite IH by done. cbn [path.join_slash]. by rewrite <- app_assoc.
Qed.

Lemma last_join_slash segs s :
  s ≠ [] → last (path.join_slash (segs ++ [s])) = last s.
Proof.
  intros Hs. destruct segs as [|a segs]; [done|].
  rewrite join_slash_snoc by done.
  rewrite last_app_cons. destruct s as [|c s]; [done|]. apply last_cons_cons.
Qed.

Lemma join_slash_nonempty segs s : s ≠ [] → path.join_slash (segs ++ [s]) ≠ [].
Proof.
  intros Hs H. apply (f_equal last) in H. rewrite last_join_slash in H by done.
  by apply last_None in H.
Qed.

(** [path.normalize] leaves an absolute path of plain segments as it is. *)
Lemma normalize_chars_absolute segs s :
  Forall plain_segment segs → plain_segment s →
  path.normalize_chars (path.slash :: path.join_slash (segs ++ [s]))
  = path.slash :: path.join_slash (segs ++ [s]).
Proof.
  intros Hsegs Hs.
  assert (Forall plain_segment (segs ++ [s])) as Hall
    by (apply Forall_app; split; [done | by constructor]).
  assert (segs ++ [s] ≠ []) as Hne by (by destruct segs).
  destruct Hs as (Hs0 & _ & _ & Hslash).
  unfold path.normalize_chars.
  assert (path.is_slash path.slash = true) as -> by reflexivity.
  rewrite last_cons, last_join_slash by done.
  change (path.split_slash [] (path.slash :: path.join_slash (segs ++ [s])))
    with ([] :: path.split_slash [] (path.join_slash (segs ++ [s]))).
  rewrite split_join_slash by done.
  change (path.normalize_segments (negb true) [] ([] :: (segs ++ [s])))
    with (path.normalize_segments false [] (segs ++ [s])).
  rewrite normalize_segments_plain by done. rewrite reverse_nil, app_nil_l.
  destruct (path.join_slash (segs ++ [s])) as [|c body] eqn:Hbody;
    [by destruct (join_slash_nonempty segs s Hs0)|].
  destruct (last s) as [d|] eqn:Hlast; [|by apply last_None in Hlast].
  assert (path.is_slash d = false) as ->; [|done].
  apply is_slash_false. apply last_Some in Hlast as [l' ->].
  apply Forall_app in Hslash as [_ Hd]. by inversion Hd.
Qed.

(** [path.join(dir, name)] for a directory given by its plain segments. *)
Lemma join_under_directory segs name :
  segs ≠ [] → Forall plain_segment segs → plain_segment (chars name) →
  path.join [str (path.slash :: path.join_slash segs); name]
  = str (path.slash :: path.join_slash segs) +:+ "/" +:+ name.
Proof.
  intros Hne Hsegs Hname. unfold path.join.
  rewrite !fmap_cons, fmap_nil, chars_str.
  rewrite filter_cons_True by done.
  rewrite filter_cons_True by apply Hname.
  rewrite filter_nil.
  change (path.join_slash [path.slash :: path.join_slash segs; chars name])
    with (path.slash :: (path.join_slash segs ++ path.slash :: chars name)).
  rewrite <- join_slash_snoc by done.
  rewrite normalize_chars_absolute by done.
  rewrite join_slash_snoc by done.
  change (path.slash :: path.join_slash segs ++ path.slash :: chars name)
    with ((path.slash :: path.join_slash segs) ++ chars "/" ++ chars name).
  by rewrite !str_app, !str_chars.
Qed.

Ltac plain_literal :=
  repeat split; try discriminate; repeat constructor; discriminate.

Lemma join_uploads name :
  plain_segment (chars name) → path.join [UPLOADS_DIR; name] = "/app/uploads/" +:+ name.
Proof.
  intros Hname.
  apply (join_under_directory [chars "app"; chars "uploads"] name); [done| |done].
  repeat constructor; plain_literal.
Qed.

Lemma join_outputs name :
  plain_segment (chars name) → path.join [OUTPUT_DIR; name] = "/app/outputs/" +:+ name.
Proof.
  intros Hname.
  apply (join_under_directory [chars "app"; chars "outputs"] name); [done| |done].
  repeat constructor; plain_literal.
Qed.

Lemma join_dirname name :
  plain_segment (chars name) → path.join [__dirname; name] = "/app/" +:+ name.
Proof.
  intros Hname.
  apply (join_under_directory [chars "app"] name); [done| |done].
  repeat constructor; plain_literal.
Qed.

Lemma no_slash_basename_chars p sfx :
  Forall (λ c, c ≠ path.slash) (path.basename_chars p sfx).
Proof.
  pose proof (take_segment_no_slash (path.drop_slashes (reverse p))) as Hseg.
  fold (path.last_segment_rev p) in Hseg.
  unfold path.basename_chars. destruct sfx as [|a sfx]; [by apply Forall_reverse|].
  destruct (bool_decide (a :: sfx = p)); [constructor|].
  destruct (path.strip_suffix_rev _ _) as [rest|] eqn:Hs; [|by apply Forall_reverse].
  pose proof (Forall_strip_suffix_rev _ _ _ _ Hs Hseg) as Hrest.
  destruct rest; by apply Forall_reverse.
Qed.

Lemma no_slash_jobId filePath : no_slash (jobId filePath).
Proof.
  unfold no_slash, jobId, path.basename. rewrite chars_str.
  apply no_slash_basename_chars.
Qed.

Lemma length_chars s : List.length (chars s) = String.length s.
Proof. induction s as [|c s IH]; cbn; [done|]. by rewrite <- IH. Qed.

(** A job id with text before it and an extension after it is a plain
    segment. *)
Lemma plain_wrapped before j ext :
  no_slash before → no_slash j → no_slash ext → (3 ≤ String.length ext)%nat →
  plain_segment (chars (template [before; j; ext])).
Proof.
  unfold no_slash. intros Hb Hj He Hlen.
  rewrite chars_template. cbn [List.concat fmap list_fmap]. rewrite app_nil_r.
  assert (3 ≤ List.length (chars before ++ chars j ++ chars ext))%nat as Hl.
  { rewrite !length_app, (length_chars ext). lia. }
  repeat split.
  - intros H. rewrite H in Hl. cbn in Hl. lia.
  - intros H. rewrite H in Hl. cbn in Hl. lia.
  - intros H. rewrite H in Hl. cbn in Hl. lia.
  - by rewrite !Forall_app.
Qed.

Ltac no_slash_literal := unfold no_slash; cbn; repeat constructor; discriminate.

Lemma derived_paths_eq filePath :
  audioFile filePath = template ["/app/uploads/"; jobId filePath; ".wav"] ∧
  generatedSrt filePath = template ["/app/outputs/"; jobId filePath; ".srt"] ∧
  finalVideo filePath = template ["/app/outputs/subtitled_"; jobId filePath; ".mp4"] ∧
  localSrt filePath = template ["/app/temp_"; jobId filePath; ".srt"].
Proof.
  pose proof (no_slash_jobId filePath) as Hj.
  unfold audioFile, generatedSrt, finalVideo, finalVideoName, localSrt, localSrtName.
  repeat split.
  - change (template [jobId filePath; ".wav"])
      with (template [EmptyString; jobId filePath; ".wav"]).
    rewrite join_uploads; [reflexivity|].
    apply plain_wrapped; [constructor | done | no_slash_literal | cbn; lia].
  - change (template [jobId filePath; ".srt"])
      with (template [EmptyString; jobId filePath; ".srt"]).
    rewrite join_outputs; [reflexivity|].
    apply plain_wrapped; [constructor | done | no_slash_literal | cbn; lia].
  - rewrite join_outputs; [reflexivity|].
    apply plain_wrapped; [no_slash_literal | done | no_slash_literal | cbn; lia].
  - rewrite join_dirname; [reflexivity|].
    apply plain_wrapped; [no_slash_literal | done | no_slash_literal | cbn; lia].
Qed.

Lemma split_last_dot_Some r e before :
  path.split_last_dot r = Some (e, before) →
  r = e ++ path.dot :: before ∧ Forall (λ c, c ≠ path.dot) e.
Proof.
  revert e. induction r as [|c r IH]; intros e; cbn; [discriminate|].
  unfold path.is_dot. case_bool_decide as Hc.
  - intros [= <- <-]. subst c. by split.
  - destruct (path.split_last_dot r) as [[e' b']|]; [|discriminate].
    intros [= <- <-]. destruct (IH e' eq_refl) as [-> He]. by split; [|constructor].
Qed.

Lemma split_last_dot_cut e before :
  Forall (λ c, c ≠ path.dot) e →
  path.split_last_dot (e ++ path.dot :: before) = Some (e, before).
Proof.
  induction 1 as [|c e Hc He IH]; cbn.
  - unfold path.is_dot. by rewrite bool_decide_eq_true_2.
  - by rewrite is_dot_false, IH.
Qed.

Lemma split_last_dot_None r :
  Forall (λ c, c ≠ path.dot) r → path.split_last_dot r = None.
Proof.
  induction 1 as [|c r Hc Hr IH]; cbn; [done|]. by rewrite is_dot_false, IH.
Qed.

Lemma strip_suffix_rev_app a rest : path.strip_suffix_rev a (a ++ rest) = Some rest.
Proof.
  induction a as [|c a IH]; cbn; [by destruct rest|].
  by rewrite bool_decide_eq_true_2.
Qed.

Lemma length_take_segment r : (List.length (path.take_segment r) ≤ List.length r)%nat.
Proof. induction r as [|c r IH]; cbn; [done|]. destruct (path.is_slash c); cbn; lia. Qed.

Lemma length_drop_slashes r : (List.length (path.drop_slashes r) ≤ List.length r)%nat.
Proof. induction r as [|c r IH]; cbn; [done|]. destruct (path.is_slash c); cbn; lia. Qed.

Lemma length_last_segment_rev p :
  (List.length (path.last_segment_rev p) ≤ List.length p)%nat.
Proof.
  unfold path.last_segment_rev.
  etrans; [apply length_take_segment|]. etrans; [apply length_drop_slashes|].
  by rewrite length_reverse.
Qed.

(** Job id and extension together are the last segment of the path. *)
Lemma jobId_extname_chars p :
  path.basename_chars p (path.extname_chars p) ++ path.extname_chars p
  = reverse (path.last_segment_rev p).
Proof.
  unfold path.extname_chars, path.basename_chars.
  destruct (path.split_last_dot (path.last_segment_rev p)) as [[e before]|] eqn:Hsplit;
    [|by rewrite app_nil_r].
  apply split_last_dot_Some in Hsplit as [Hseg He].
  destruct before as [|b before]; [by rewrite app_nil_r|].
  destruct (bool_decide (e = []) && bool_decide (b :: before = [path.dot])) eqn:Hdd;
    [by rewrite app_nil_r|].
  destruct (decide (path.dot :: reverse e = p)) as [Hp|Hp].
  - (* the suffix cannot be the whole path *)
    exfalso. pose proof (length_last_segment_rev p) as Hlen.
    rewrite Hseg, <- Hp, length_app in Hlen. cbn in Hlen.
    rewrite length_reverse in Hlen. lia.
  - rewrite bool_decide_eq_false_2 by done.
    rewrite reverse_cons, reverse_involutive, Hseg.
    replace (e ++ path.dot :: b :: before) with ((e ++ [path.dot]) ++ b :: before)
      by by rewrite <- app_assoc.
    rewrite strip_suffix_rev_app.
    by rewrite reverse_app, reverse_snoc.
Qed.

Lemma numeric_pretty_N_go x s :
  Forall numeric (chars s) → Forall numeric (chars (pretty_N_go x s)).
Proof.
  revert s. induction (N.lt_wf_0 x) as [x _ IH]; intros s Hs.
  assert (x = 0 ∨ 0 < x)%N as [->|Hx] by lia; [by rewrite pretty_N_go_0|].
  rewrite pretty_N_go_step by done. apply IH; [by apply N.div_lt|].
  cbn. constructor; [|done].
  unfold numeric, pretty_N_char. cbn. repeat case_match; set_solver.
Qed.

Lemma numeric_pretty_Z (z : Z) : Forall numeric (chars (pretty z)).
Proof.
  assert (∀ n : N, Forall numeric (chars (pretty n))) as HN.
  { intros n. unfold pretty, pretty_N. case_decide.
    - repeat constructor.
    - apply numeric_pretty_N_go. constructor. }
  destruct z as [|p|p]; unfold pretty, pretty_Z.
  - repeat constructor.
  - apply (HN (Npos p)).
  - rewrite chars_append. apply Forall_app. split; [|apply (HN (Npos p))].
    repeat constructor.
Qed.

Lemma numeric_not_slash c : numeric c → c ≠ path.slash.
Proof. unfold numeric. cbn. intros H ->. set_solver. Qed.

Lemma numeric_not_dot c : numeric c → c ≠ path.dot.
Proof. unfold numeric. cbn. intros H ->. set_solver. Qed.

Lemma no_slash_pretty (z : Z) : no_slash (pretty z).
Proof. eapply Forall_impl; [apply numeric_pretty_Z | apply numeric_not_slash]. Qed.

Lemma no_dot_pretty (z : Z) : no_dot (pretty z).
Proof. eapply Forall_impl; [apply numeric_pretty_Z | apply numeric_not_dot]. Qed.

(** ** The job id of a stored upload *)

Lemma drop_slashes_head c r : c ≠ path.slash → path.drop_slashes (c :: r) = c :: r.
Proof. intros Hc. cbn. by rewrite is_slash_false. Qed.

Lemma last_segment_rev_under d name :
  name ≠ [] → Forall (λ c, c ≠ path.slash) name →
  path.last_segment_rev (d ++ path.slash :: name) = reverse name.
Proof.
  intros Hne Hname. unfold path.last_segment_rev.
  rewrite reverse_app, reverse_cons, <- app_assoc. cbn [app].
  assert (Forall (λ c, c ≠ path.slash) (reverse name)) as Hrev by by apply Forall_reverse.
  destruct (reverse name) as [|c r] eqn:Hr.
  { apply (f_equal reverse) in Hr. rewrite reverse_involutive in Hr. done. }
  change ((c :: r) ++ path.slash :: reverse d) with (c :: (r ++ path.slash :: reverse d)).
  rewrite drop_slashes_head by by inversion Hrev.
  change (c :: (r ++ path.slash :: reverse d)) with ((c :: r) ++ path.slash :: reverse d).
  by apply take_segment_cut.
Qed.

Lemma jobId_with_extension d cs ce :
  cs ≠ [] → cs ≠ [path.dot] ∨ ce ≠ [] →
  Forall (λ c, c ≠ path.slash) cs → Forall (λ c, c ≠ path.slash) ce →
  Forall (λ c, c ≠ path.dot) ce →
  path.extname (str (d ++ path.slash :: cs ++ path.dot :: ce)) = str (path.dot :: ce) ∧
  jobId (str (d ++ path.slash :: cs ++ path.dot :: ce)) = str cs.
Proof.
  intros Hcs Hcs' Hs He Hd.
  assert (path.extname_chars (d ++ path.slash :: cs ++ path.dot :: ce) = path.dot :: ce)
    as Hext.
  { unfold path.extname_chars. rewrite last_segment_rev_under.
    2: { by destruct cs. }
    2: { apply Forall_app. split; [done|]. constructor; [discriminate|done]. }
    rewrite reverse_app, reverse_cons, <- app_assoc. cbn [app].
    rewrite split_last_dot_cut by by apply Forall_reverse.
    destruct (reverse cs) as [|c r] eqn:Hr.
    { apply (f_equal reverse) in Hr. rewrite reverse_involutive in Hr. done. }
    assert (bool_decide (reverse ce = []) && bool_decide (c :: r = [path.dot]) = false)
      as ->; [|by rewrite reverse_involutive].
    destruct Hcs' as [Hcs'|Hce].
    - rewrite (bool_decide_eq_false_2 (c :: r = _)); [by rewrite andb_false_r|].
      intros Hc. rewrite Hc in Hr.
      apply (f_equal reverse) in Hr. rewrite reverse_involutive in Hr. done.
    - rewrite (bool_decide_eq_false_2 (reverse ce = _)); [done|].
      intros Hc. apply (f_equal reverse) in Hc. by rewrite reverse_involutive in Hc. }
  unfold jobId, path.extname, path.basename. rewrite !chars_str, Hext.
  split; [done|]. f_equal.
  pose proof (jobId_extname_chars (d ++ path.slash :: cs ++ path.dot :: ce)) as Hround.
  rewrite Hext, last_segment_rev_under, reverse_involutive in Hround.
  2: { by destruct cs. }
  2: { apply Forall_app. split; [done|]. constructor; [discriminate|done]. }
  replace (cs ++ path.dot :: ce) with (cs ++ (path.dot :: ce)) in Hround by done.
  by apply app_inv_tail in Hround.
Qed.

Lemma jobId_without_extension d cn :
  cn ≠ [] → Forall (λ c, c ≠ path.slash) cn → Forall (λ c, c ≠ path.dot) cn →
  jobId (str (d ++ path.slash :: cn)) = str cn.
Proof.
  intros Hne Hs Hd. unfold jobId, path.extname, path.basename. rewrite !chars_str.
  unfold path.extname_chars. rewrite last_segment_rev_under by done.
  rewrite split_last_dot_None by by apply Forall_reverse.
  unfold path.basename_chars. rewrite last_segment_rev_under by done.
  by rewrite reverse_involutive.
Qed.

Lemma chars_storage_filename now original :
  chars (storage_filename now original)
  = chars (pretty now) ++ "-"%char :: chars original.
Proof.
  unfold storage_filename. rewrite chars_template.
  cbn [List.concat fmap list_fmap]. by rewrite app_nil_r.
Qed.

Lemma plain_storage_filename now original :
  no_slash original → plain_segment (chars (storage_filename now original)).
Proof.
  intros Ho. rewrite chars_storage_filename.
  assert ("-"%char ∈ chars (pretty now) ++ "-"%char :: chars original) as Hin
    by (apply elem_of_app; right; left).
  repeat split.
  - intros H. rewrite H in Hin. by apply elem_of_nil in Hin.
  - intros H. rewrite H in Hin. set_solver.
  - intros H. rewrite H in Hin. set_solver.
  - apply Forall_app. split; [apply no_slash_pretty|]. constructor; [discriminate|done].
Qed.

Lemma file_path_stored now original :
  no_slash original →
  file_path (stored now original) = "/app/uploads/" +:+ storage_filename now original.
Proof. intros Ho. apply join_uploads. by apply plain_storage_filename. Qed.

Lemma chars_file_path_stored now original :
  no_slash original →
  file_path (stored now original)
  = str (chars "/app/uploads" ++ path.slash :: chars (pretty now) ++ "-"%char :: chars original).
Proof.
  intros Ho. rewrite file_path_stored by done.
  rewrite <- (str_chars ("/app/uploads/" +:+ _)), chars_append, chars_storage_filename.
  reflexivity.
Qed.

Lemma jobId_stored_with_extension now stem ext :
  no_slash stem → no_slash ext → no_dot ext →
  let f := stored now (template [stem; "."; ext]) in
  path.extname (file_path f) = template ["."; ext] ∧
  jobId (file_path f) = template [pretty now; "-"; stem].
Proof.
  intros Hs He Hd f. unfold f.
  assert (chars (template [stem; "."; ext]) = chars stem ++ path.dot :: chars ext) as Ho.
  { rewrite chars_template. cbn [List.concat fmap list_fmap]. by rewrite app_nil_r. }
  rewrite chars_file_path_stored.
  2: { unfold no_slash. rewrite Ho. apply Forall_app. split; [done|].
       constructor; [discriminate|done]. }
  rewrite Ho.
  replace (chars (pretty now) ++ "-"%char :: chars stem ++ path.dot :: chars ext)
    with ((chars (pretty now) ++ "-"%char :: chars stem) ++ path.dot :: chars ext)
    by (by rewrite <- app_assoc).
  assert ("-"%char ∈ chars (pretty now) ++ "-"%char :: chars stem) as Hin
    by (apply elem_of_app; right; left).
  destruct (jobId_with_extension (chars "/app/uploads")
              (chars (pretty now) ++ "-"%char :: chars stem) (chars ext)) as [Hx Hj];
    try done.
  - intros H. rewrite H in Hin. by apply elem_of_nil in Hin.
  - left. intros H. rewrite H in Hin. set_solver.
  - apply Forall_app. split; [apply no_slash_pretty|]. constructor; [discriminate|done].
  - rewrite Hx, Hj. split.
    + rewrite <- (str_chars (template ["."; ext])), chars_template.
      cbn [List.concat fmap list_fmap]. by rewrite app_nil_r.
    + rewrite <- (str_chars (template [pretty now; "-"; stem])), chars_template.
      cbn [List.concat fmap list_fmap]. by rewrite app_nil_r.
Qed.

Lemma jobId_stored_without_extension now original :
  no_slash original → no_dot original →
  jobId (file_path (stored now original)) = storage_filename now original.
Proof.
  intros Hs Hd. rewrite chars_file_path_stored by done.
  rewrite jobId_without_extension.
  - by rewrite <- chars_storage_filename, str_chars.
  - by destruct (chars (pretty now)).
  - apply Forall_app. split; [apply no_slash_pretty|]. constructor; [discriminate|done].
  - apply Forall_app. split; [apply no_dot_pretty|]. constructor; [discriminate|done].
Qed.

(** ** What the paths of a job guarantee *)

(** X8.  The job id is one path component: whatever the stored path, it holds
    no ["/"]; and job id and extension together give back the name of the
    stored file (the last segment of the path). *)
Theorem jobId_is_one_component filePath :
  no_slash (jobId filePath) ∧
  jobId filePath +:+ path.extname filePath = path.basename filePath EmptyString.
Proof.
  split; [apply no_slash_jobId|].
  unfold jobId, path.extname, path.basename. rewrite !chars_str, <- str_app.
  by rewrite jobId_extname_chars.
Qed.

(** X9.  The paths of a job, written out: each is the job id between a fixed
    directory and a fixed extension, so that no stored path makes a job
    read or write outside [uploads], [outputs] and the server's directory. *)
Theorem paths_of_a_job_written_out filePath :
  audioFile filePath = template ["/app/uploads/"; jobId filePath; ".wav"] ∧
  generatedSrt filePath = template ["/app/outputs/"; jobId filePath; ".srt"] ∧
  finalVideo filePath = template ["/app/outputs/subtitled_"; jobId filePath; ".mp4"] ∧
  localSrt filePath = template ["/app/temp_"; jobId filePath; ".srt"].
Proof. apply derived_paths_eq. Qed.

Lemma chars_wrapped pre j ext :
  chars (template [pre; j; ext]) = chars pre ++ chars j ++ chars ext.
Proof. rewrite chars_template. cbn [List.concat fmap list_fmap]. by rewrite app_nil_r. Qed.

Lemma wrapped_inj pre ext j1 j2 :
  template [pre; j1; ext] = template [pre; j2; ext] → j1 = j2.
Proof.
  intros H. apply (f_equal chars) in H. rewrite !chars_wrapped in H.
  apply app_inv_head, app_inv_tail in H.
  by rewrite <- (str_chars j1), <- (str_chars j2), H.
Qed.

Lemma wrapped_last_ne pre1 j1 ext1 pre2 j2 ext2 c d :
  last (chars ext1) = Some c → last (chars ext2) = Some d → c ≠ d →
  template [pre1; j1; ext1] ≠ template [pre2; j2; ext2].
Proof.
  intros H1 H2 Hcd H. apply (f_equal (λ s, last (chars s))) in H. cbn beta in H.
  rewrite !chars_wrapped, !last_app, H1, H2 in H. congruence.
Qed.

Lemma wrapped_head_ne pre1 j1 ext1 pre2 j2 ext2 n :
  take n (chars pre1) ≠ take n (chars pre2) →
  (n ≤ String.length pre1)%nat → (n ≤ String.length pre2)%nat →
  template [pre1; j1; ext1] ≠ template [pre2; j2; ext2].
Proof.
  intros Hne Hl1 Hl2 H. apply Hne.
  apply (f_equal (λ s, take n (chars s))) in H. cbn beta in H.
  rewrite !chars_wrapped in H.
  by rewrite !take_app_le in H by (by rewrite length_chars).
Qed.

Lemma derived_paths_apart p q :
  audioFile p ≠ generatedSrt q ∧ audioFile p ≠ finalVideo q ∧
  audioFile p ≠ localSrt q ∧ generatedSrt p ≠ finalVideo q ∧
  generatedSrt p ≠ localSrt q ∧ finalVideo p ≠ localSrt q.
Proof.
  destruct (derived_paths_eq p) as (-> & -> & -> & _).
  destruct (derived_paths_eq q) as (_ & -> & -> & ->).
  repeat split.
  - apply (wrapped_head_ne _ _ _ _ _ _ 6); [cbn; discriminate | cbn; lia | cbn; lia].
  - apply (wrapped_head_ne _ _ _ _ _ _ 6); [cbn; discriminate | cbn; lia | cbn; lia].
  - apply (wrapped_head_ne _ _ _ _ _ _ 6); [cbn; discriminate | cbn; lia | cbn; lia].
  - apply (wrapped_last_ne _ _ _ _ _ _ "t"%char "4"%char); [done | done | discriminate].
  - apply (wrapped_head_ne _ _ _ _ _ _ 6); [cbn; discriminate | cbn; lia | cbn; lia].
  - apply (wrapped_head_ne _ _ _ _ _ _ 6); [cbn; discriminate | cbn; lia | cbn; lia].
Qed.

(** X10.  The four paths of a job are four different files, also across jobs; and
    two jobs share their audio file, their subtitle file, their video or
    their temporary copy exactly when they have the same job id. *)
Theorem derived_paths_keyed_by_job_id p q :
  (audioFile p ≠ generatedSrt q ∧ audioFile p ≠ finalVideo q ∧
   audioFile p ≠ localSrt q ∧ generatedSrt p ≠ finalVideo q ∧
   generatedSrt p ≠ localSrt q ∧ finalVideo p ≠ localSrt q) ∧
  (audioFile p = audioFile q ↔ jobId p = jobId q) ∧
  (generatedSrt p = generatedSrt q ↔ jobId p = jobId q) ∧
  (finalVideo p = finalVideo q ↔ jobId p = jobId q) ∧
  (localSrt p = localSrt q ↔ jobId p = jobId q).
Proof.
  split; [apply derived_paths_apart|].
  destruct (derived_paths_eq p) as (-> & -> & -> & ->).
  destruct (derived_paths_eq q) as (-> & -> & -> & ->).
  repeat split; try (by intros ->); apply wrapped_inj.
Qed.

(** ** Stored uploads *)

(** X12.  For an upload named [stem.ext] the job id is the timestamp, a dash and
    [stem], however many dots [stem] holds and also when it is empty (a
    dot-file); for a name without a dot the job id is the whole stored
    name. *)
Theorem stored_job_id now :
  (∀ stem ext, no_slash stem → no_slash ext → no_dot ext →
     jobId (file_path (stored now (template [stem; "."; ext])))
     = template [pretty now; "-"; stem]) ∧
  (∀ original, no_slash original → no_dot original →
     jobId (file_path (stored now original)) = storage_filename now original).
Proof.
  split.
  - intros stem ext Hs He Hd. by apply jobId_stored_with_extension.
  - apply jobId_stored_without_extension.
Qed.

Lemma movie_job_id_witness :
  no_slash "movie" ∧ no_slash "mp4" ∧ no_dot "mp4" ∧
  jobId (file_path (stored 1700000000000 (template ["movie"; "."; "mp4"])))
  = template [pretty 1700000000000%Z; "-"; "movie"].
Proof.
  assert (no_slash "movie") as H1 by no_slash_literal.
  assert (no_slash "mp4") as H2 by no_slash_literal.
  assert (no_dot "mp4") as H3 by (unfold no_dot; cbn; repeat constructor; discriminate).
  repeat (split; [assumption|]).
  exact (proj1 (stored_job_id 1700000000000) "movie" "mp4" H1 H2 H3).
Defined.

Lemma last_dot_split l :
  ¬ Forall (λ c, c ≠ path.dot) l →
  ∃ a e, l = a ++ path.dot :: e ∧ Forall (λ c, c ≠ path.dot) e.
Proof.
  induction l as [|c l IH]; intros Hl; [by destruct Hl|].
  destruct (decide (Forall (λ c, c ≠ path.dot) l)) as [Hd|Hd].
  - destruct (decide (c = path.dot)) as [->|Hc].
    + by exists [], l.
    + destruct Hl. by constructor.
  - destruct (IH Hd) as (a & e & -> & He). by exists (c :: a), e.
Qed.

(** X13.  The [jobId] that the upload is acknowledged with is the job id of the
    job exactly when the original name holds no dot. *)
Theorem acknowledged_id_is_job_id_iff_no_dot oracle sockets now original socketId w0 :
  no_slash original →
  let f := stored now original in
  (post_upload oracle sockets (mkRequest (Some f) socketId) w0).1
  = Return (mkResponse 200 [("message", "Upload successful, processing started");
                            ("jobId", filename f)]) ∧
  (filename f = jobId (file_path f) ↔ no_dot original).
Proof.
  intros Hs f. split.
  - unfold post_upload. cbn -[template processVideo].
    destruct (sockets !! socketId) as [s|]; unfold mbind, Js_mbind, Js_bind, spawn, emit,
      console_log; cbn -[template processVideo].
    all: match goal with
         | |- context [processVideo ?o ?p ?n ?s ?w] =>
             destruct (processVideo o p n s w) as [[[]|?] ?]
         end; reflexivity.
  - split.
    + intros Heq. destruct (decide (no_dot original)) as [|Hdot]; [done|exfalso].
      apply last_dot_split in Hdot as (a & e & Ho & He).
      assert (original = template [str a; "."; str e]) as ->.
      { rewrite <- (str_chars original), Ho, <- (str_chars (template _)), chars_template.
        cbn [List.concat fmap list_fmap]. by rewrite !chars_str, app_nil_r. }
      assert (no_slash (str a) ∧ no_slash (str e)) as [Ha He'].
      { unfold no_slash in *. rewrite !chars_str. rewrite Ho in Hs.
        apply Forall_app in Hs as [Ha Hs]. by inversion Hs. }
      unfold f in Heq. cbn [filename stored] in Heq.
      rewrite (proj2 (jobId_stored_with_extension now (str a) (str e) Ha He'
                        ltac:(by unfold no_dot; rewrite chars_str))) in Heq.
      apply (f_equal (λ s, List.length (chars s))) in Heq. cbn beta in Heq.
      rewrite chars_storage_filename, !chars_template in Heq.
      cbn [List.concat fmap list_fmap] in Heq.
      rewrite !length_app in Heq. cbn in Heq. rewrite ?length_app in Heq. cbn in Heq. lia.
    + intros Hd. symmetry. by apply jobId_stored_without_extension.
Qed.

Lemma acknowledged_id_witness :
  no_slash "movie" ∧
  (filename (stored 1700000000000 "movie")
   = jobId (file_path (stored 1700000000000 "movie")) ↔ no_dot "movie").
Proof.
  assert (no_slash "movie") as H by no_slash_literal.
  split; [exact H|].
  exact (proj2 (acknowledged_id_is_job_id_iff_no_dot no_tools ∅ 1700000000000 "movie"
                  "nobody" movie_world H)).
Defined.

Lemma chars_inj a b : chars a = chars b → a = b.
Proof. intros H. by rewrite <- (str_chars a), <- (str_chars b), H. Qed.

Ltac string_eq :=
  apply chars_inj; unfold storage_filename, template; cbn [foldr];
  rewrite !chars_append; cbn; rewrite ?app_nil_r, <- ?app_assoc; cbn;
  rewrite ?app_nil_r, <- ?app_assoc; reflexivity.

(** X14.  An upload named [stem.wav] is stored at the very path of its audio
    file: the extraction command has that path as input and as output, and
    a job that runs to its end removes the uploaded file. *)
Theorem wav_upload_is_its_own_audio_file now stem :
  no_slash stem →
  let p := file_path (stored now (template [stem; ".wav"])) in
  audioFile p = p ∧
  ∀ oracle originalName socket w0 wf,
    processVideo_try oracle p originalName socket w0 = (Return tt, wf) →
    p ∉ files wf.
Proof.
  intros Hs p.
  assert (audioFile p = p) as Heq.
  { destruct (derived_paths_eq p) as (-> & _). unfold p.
    change (template [stem; ".wav"]) with (template [stem; "."; "wav"]).
    rewrite (proj2 (jobId_stored_with_extension now stem "wav" Hs
                      ltac:(no_slash_literal)
                      ltac:(unfold no_dot; cbn; repeat constructor; discriminate))).
    rewrite file_path_stored.
    - string_eq.
    - unfold no_slash. rewrite chars_template. cbn [List.concat fmap list_fmap].
      rewrite app_nil_r. apply Forall_app. split; [done|]. cbn. repeat constructor; discriminate. }
  split; [exact Heq|].
  intros oracle originalName socket w0 wf Hrun.
  apply processVideo_try_returns in Hrun as (s & fs & _ & -> & _).
  rewrite <- Heq at 1. set_solver.
Qed.

Lemma wav_upload_witness :
  no_slash "speech" ∧
  audioFile (file_path (stored 1700000000000 (template ["speech"; ".wav"])))
  = file_path (stored 1700000000000 (template ["speech"; ".wav"])).
Proof.
  assert (no_slash "speech") as H by no_slash_literal.
  split; [exact H|].
  exact (proj1 (wav_upload_is_its_own_audio_file 1700000000000 "speech" H)).
Defined.

(** X15.  Two uploads stored in the same millisecond under names that differ in
    their extension only are two files with one job id, and so with the
    same audio, subtitle, video and temporary paths. *)
Theorem same_stem_same_job now stem ext1 ext2 :
  no_slash stem → no_slash ext1 → no_dot ext1 → no_slash ext2 → no_dot ext2 →
  let p1 := file_path (stored now (template [stem; "."; ext1])) in
  let p2 := file_path (stored now (template [stem; "."; ext2])) in
  (ext1 ≠ ext2 → p1 ≠ p2) ∧
  jobId p1 = jobId p2 ∧ audioFile p1 = audioFile p2 ∧
  generatedSrt p1 = generatedSrt p2 ∧ finalVideo p1 = finalVideo p2 ∧
  localSrt p1 = localSrt p2.
Proof.
  intros Hs Hs1 Hd1 Hs2 Hd2 p1 p2.
  assert (jobId p1 = jobId p2) as Hj.
  { unfold p1, p2.
    by rewrite (proj2 (jobId_stored_with_extension now stem ext1 Hs Hs1 Hd1)),
               (proj2 (jobId_stored_with_extension now stem ext2 Hs Hs2 Hd2)). }
  split.
  - intros Hne Heq. apply Hne.
    apply (f_equal (λ p, chars (path.extname p))) in Heq. cbn beta in Heq.
    unfold p1, p2 in Heq.
    rewrite (proj1 (jobId_stored_with_extension now stem ext1 Hs Hs1 Hd1)),
            (proj1 (jobId_stored_with_extension now stem ext2 Hs Hs2 Hd2)) in Heq.
    rewrite !chars_template in Heq. cbn [List.concat fmap list_fmap] in Heq.
    rewrite !app_nil_r in Heq. injection Heq as Heq.
    by rewrite <- (str_chars ext1), <- (str_chars ext2), Heq.
  - split; [exact Hj|].
    unfold audioFile, generatedSrt, finalVideo, finalVideoName, localSrt, localSrtName.
    by rewrite Hj.
Qed.

Lemma same_stem_witness :
  let p1 := file_path (stored 1700000000000 (template ["movie"; "."; "mp4"])) in
  let p2 := file_path (stored 1700000000000 (template ["movie"; "."; "mkv"])) in
  p1 ≠ p2 ∧ jobId p1 = jobId p2.
Proof.
  assert (no_slash "movie") as H by no_slash_literal.
  assert (no_slash "mp4") as H1 by no_slash_literal.
  assert (no_slash "mkv") as H2 by no_slash_literal.
  assert (no_dot "mp4") as H3 by (unfold no_dot; cbn; repeat constructor; discriminate).
  assert (no_dot "mkv") as H4 by (unfold no_dot; cbn; repeat constructor; discriminate).
  assert ("mp4" ≠ "mkv") as H5 by discriminate.
  destruct (same_stem_same_job 1700000000000 "movie" "mp4" "mkv" H H1 H3 H2 H4)
    as (Hp & Hj & _).
  exact (conj (Hp H5) Hj).
Defined.

Lemma no_dash_pretty_N_go x s :
  Forall (λ c, c ≠ "-"%char) (chars s) →
  Forall (λ c, c ≠ "-"%char) (chars (pretty_N_go x s)).
Proof.
  revert s. induction (N.lt_wf_0 x) as [x _ IH]; intros s Hs.
  assert (x = 0 ∨ 0 < x)%N as [->|Hx] by lia; [by rewrite pretty_N_go_0|].
  rewrite pretty_N_go_step by done. apply IH; [by apply N.div_lt|].
  cbn. constructor; [|done]. unfold pretty_N_char. by repeat case_match.
Qed.

Lemma no_dash_pretty (z : Z) : (0 ≤ z)%Z → Forall (λ c, c ≠ "-"%char) (chars (pretty z)).
Proof.
  intros Hz. destruct z as [|p|p]; [by repeat constructor| |lia].
  unfold pretty, pretty_Z, pretty, pretty_positive, pretty, pretty_N.
  case_decide; [done|]. apply no_dash_pretty_N_go. constructor.
Qed.

Lemma first_dash_split a a' b b' :
  Forall (λ c, c ≠ "-"%char) a → Forall (λ c, c ≠ "-"%char) a' →
  a ++ "-"%char :: b = a' ++ "-"%char :: b' → a = a' ∧ b = b'.
Proof.
  intros Ha. revert a'. induction Ha as [|c a Hc Ha IH]; intros a' Ha' H.
  - destruct Ha' as [|c' a' Hc' Ha']; cbn in H; [by injection H|].
    injection H as H _. by destruct Hc'.
  - destruct Ha' as [|c' a' Hc' Ha']; cbn in H.
    + injection H as H _. by destruct Hc.
    + injection H as -> H. destruct (IH a' Ha' H) as [-> ->]. done.
Qed.

(** X16.  The name a file is stored under tells the time of the upload and the
    original name: two uploads get the same stored name only when they
    arrive in the same millisecond under the same name. *)
Theorem storage_filename_inj now1 original1 now2 original2 :
  (0 ≤ now1)%Z → (0 ≤ now2)%Z →
  storage_filename now1 original1 = storage_filename now2 original2 →
  now1 = now2 ∧ original1 = original2.
Proof.
  intros H1 H2 Heq. apply (f_equal chars) in Heq.
  rewrite !chars_storage_filename in Heq.
  apply first_dash_split in Heq as [Hn Ho]; [|by apply no_dash_pretty..].
  split.
  - apply (inj pretty). by apply chars_inj.
  - by apply chars_inj.
Qed.

Lemma storage_filename_witness :
  (0 ≤ 1700000000000)%Z ∧
  storage_filename 1700000000000 "movie.mp4" = filename movie ∧
  (1700000000000%Z = 1700000000000%Z ∧ "movie.mp4" = "movie.mp4").
Proof.
  assert (0 ≤ 1700000000000)%Z as H by lia.
  assert (storage_filename 1700000000000 "movie.mp4" = filename movie) as Heq
    by reflexivity.
  split; [exact H|]. split; [exact Heq|].
  exact (storage_filename_inj 1700000000000 "movie.mp4" 1700000000000 "movie.mp4" H H Heq).
Defined.

Lemma processVideo_try_leaves oracle filePath originalName socket w0 wf :
  processVideo_try oracle filePath originalName socket w0 = (Return tt, wf) →
  files wf = files_after_tools w0 wf ∖ {[localSrt filePath]} ∖ {[audioFile filePath]}.
Proof.
  destruct socket as [s|]; run_js.
  all: try discriminate.
  all: intros [= <-]; since_js.
  all: repeat match goal with
         | H : bool_decide (_ ∈ _) = true |- _ => apply bool_decide_eq_true in H
         | H : bool_decide (_ ∈ _) = false |- _ => apply bool_decide_eq_false in H
         end.
  all: try rewrite last_snoc; cbn; set_solver.
Qed.

(** X17.  What the tools wrote into [outputs] stays there: when a job has run to
    its end, the subtitle file and the rendered video are on disk if the
    burn left them, whatever the job id. *)
Theorem outputs_are_retained oracle filePath originalName socket w0 wf :
  processVideo_try oracle filePath originalName socket w0 = (Return tt, wf) →
  (finalVideo filePath ∈ files_after_tools w0 wf → finalVideo filePath ∈ files wf) ∧
  (generatedSrt filePath ∈ files_after_tools w0 wf → generatedSrt filePath ∈ files wf).
Proof.
  intros Hrun. rewrite (processVideo_try_leaves _ _ _ _ _ _ Hrun).
  destruct (derived_paths_apart filePath filePath) as (H1 & H2 & _ & _ & H5 & H6).
  set_solver.
Qed.

Lemma retained_video_witness :
  let p := file_path movie in
  let r := processVideo_try (working_tools p) p "movie.mp4" (Some alice) movie_world in
  r = (Return tt, r.2) ∧ finalVideo p ∈ files_after_tools movie_world r.2 ∧
  finalVideo p ∈ files r.2.
Proof.
  cbv zeta.
  assert (processVideo_try (working_tools (file_path movie)) (file_path movie)
            "movie.mp4" (Some alice) movie_world
          = (Return tt,
             (processVideo_try (working_tools (file_path movie)) (file_path movie)
                "movie.mp4" (Some alice) movie_world).2)) as Hrun
    by (vm_compute; reflexivity).
  assert (finalVideo (file_path movie)
          ∈ files_after_tools movie_world
              (processVideo_try (working_tools (file_path movie)) (file_path movie)
                 "movie.mp4" (Some alice) movie_world).2) as Hin
    by (apply (bool_decide_unpack _); vm_compute; exact I).
  split; [exact Hrun|]. split; [exact Hin|].
  exact (proj1 (outputs_are_retained _ _ _ _ _ _ Hrun) Hin).
Defined.

(** ** The upload endpoint, start-up and the front-end route *)

(** X18.  The upload endpoint always answers: 400 exactly when the request holds
    no file, and then nothing else happens; 200 otherwise, whatever becomes
    of the job.  It leaves a rejected promise behind exactly when there is
    a file and no connected socket has the given id. *)
Theorem upload_always_answers oracle sockets req w0 :
  let r := post_upload oracle sockets req w0 in
  ∃ response,
    r.1 = Return response ∧
    (status response = 400%Z ↔ req_file req = None) ∧
    (status response = 200%Z ↔ is_Some (req_file req)) ∧
    (req_file req = None → r.2 = w0) ∧
    unhandled r.2
    = unhandled w0 ++
      match req_file req, sockets !! req_socketId req with
      | Some _, None => [undefined_emit]
      | _, _ => []
      end.
Proof.
  cbv zeta. destruct req as [[file|] socketId]; unfold post_upload; cbn -[template].
  - destruct (sockets !! socketId) as [s|].
    + run_js.
      all: eexists; split; [reflexivity|]; cbn; rewrite ?app_nil_r.
      all: repeat split; try done; try (intros _; eauto); try by intros [? ?].
    + run_js. eexists. split; [reflexivity|]. cbn.
      repeat split; try done; try (intros _; eauto).
  - eexists. split; [reflexivity|]. cbn. rewrite app_nil_r.
    repeat split; try done; try by intros [? ?].
Qed.

(** X19.  Start-up creates what is missing of [uploads] and [outputs] and
    touches nothing else; it does not fail when they exist already, so that
    a restart is harmless. *)
Theorem ensure_directories_idempotent w :
  __dirname ∈ files w →
  ∃ w', ensure_directories w = (Return tt, w') ∧
        files w' = files w ∪ {[UPLOADS_DIR; OUTPUT_DIR]} ∧
        emitted w' = emitted w ∧ invocations w' = invocations w ∧
        unlinked w' = unlinked w ∧
        ensure_directories w' = (Return tt, w').
Proof.
  intros Hdir.
  assert (path.join [UPLOADS_DIR; ".."] = __dirname) as Hu by reflexivity.
  assert (path.join [OUTPUT_DIR; ".."] = __dirname) as Ho by reflexivity.
  unfold ensure_directories, mkdirSync. unfold_js. rewrite Hu, Ho. cbn.
  destruct (decide (UPLOADS_DIR ∈ files w)) as [H1|H1];
    destruct (decide (OUTPUT_DIR ∈ files w)) as [H2|H2].
  all: repeat first
         [ rewrite (bool_decide_eq_true_2 (UPLOADS_DIR ∈ _)) by set_solver
         | rewrite (bool_decide_eq_false_2 (UPLOADS_DIR ∈ _)) by set_solver
         | rewrite (bool_decide_eq_true_2 (OUTPUT_DIR ∈ _)) by set_solver
         | rewrite (bool_decide_eq_false_2 (OUTPUT_DIR ∈ _)) by set_solver
         | rewrite (bool_decide_eq_true_2 (__dirname ∈ _)) by set_solver
         | progress cbn ].
  all: eexists; split; [reflexivity|]; cbn.
  all: repeat first
         [ rewrite (bool_decide_eq_true_2 (UPLOADS_DIR ∈ _)) by set_solver
         | rewrite (bool_decide_eq_true_2 (OUTPUT_DIR ∈ _)) by set_solver
         | progress cbn ].
  all: repeat split; try reflexivity; set_solver.
Qed.

Lemma ensure_directories_witness :
  __dirname ∈ files (fresh_world {[ __dirname ]}) ∧
  ∃ w', ensure_directories (fresh_world {[ __dirname ]}) = (Return tt, w') ∧
        files w' = files (fresh_world {[ __dirname ]}) ∪ {[UPLOADS_DIR; OUTPUT_DIR]}.
Proof.
  assert (__dirname ∈ files (fresh_world {[ __dirname ]})) as H
    by (apply (bool_decide_unpack _); vm_compute; exact I).
  split; [exact H|].
  destruct (ensure_directories_idempotent _ H) as (w' & Hrun & Hfiles & _).
  exact (ex_intro _ w' (conj Hrun Hfiles)).
Defined.

Lemma prefix_append a rest : String.prefix a (a +:+ rest) = true.
Proof.
  induction a as [|c a IH]; simpl; [by destruct rest|].
  destruct (ascii_dec c c); [exact IH|done].
Qed.

Lemma prefix_split a s : String.prefix a s = true → ∃ rest, s = a +:+ rest.
Proof.
  revert s. induction a as [|c a IH]; intros s; simpl; [by exists s|].
  destruct s as [|d s]; [discriminate|]. simpl.
  destruct (ascii_dec c d) as [->|]; [|discriminate].
  intros [rest ->]%IH. by exists rest.
Qed.

(** X20.  The front-end route leaves a request unanswered exactly when its path
    begins with [/download] or [/upload], as [/uploads] or [/downloading]
    do too; every other path gets [index.html]. *)
Theorem frontend_fallback_unanswered reqPath :
  (frontend_fallback reqPath = None
   ↔ ∃ rest, reqPath = "/download" +:+ rest ∨ reqPath = "/upload" +:+ rest) ∧
  (frontend_fallback reqPath ≠ None →
   frontend_fallback reqPath = Some (path.join [FRONTEND_DIST; "index.html"])).
Proof.
  unfold frontend_fallback. split; [split|].
  - destruct (String.prefix "/download" reqPath) eqn:Hd.
    { intros _. apply prefix_split in Hd as [rest ->]. eauto. }
    destruct (String.prefix "/upload" reqPath) eqn:Hu; [|discriminate].
    intros _. apply prefix_split in Hu as [rest ->]. eauto.
  - intros [rest [-> | ->]].
    + by rewrite prefix_append.
    + rewrite (prefix_append "/upload"). by rewrite orb_true_r.
  - by destruct (_ || _).
Qed.

Lemma frontend_fallback_witness :
  frontend_fallback "/about" ≠ None ∧
  frontend_fallback "/about" = Some (path.join [FRONTEND_DIST; "index.html"]).
Proof.
  assert (frontend_fallback "/about" ≠ None) as H by (vm_compute; discriminate).
  split; [exact H|].
  exact (proj2 (frontend_fallback_unanswered "/about") H).
Defined.

Lemma jobId_wrapped dir before j ext :
  no_slash before → no_slash j → no_slash ext → no_dot ext →
  chars ext ≠ [] → chars before ++ chars j ≠ [] →
  jobId (template [dir; "/"; before; j; "."; ext]) = before +:+ j.
Proof.
  intros Hb Hj He Hd Hne Hbj.
  assert (template [dir; "/"; before; j; "."; ext]
          = str (chars dir ++ path.slash :: (chars before ++ chars j)
                   ++ path.dot :: chars ext)) as ->.
  { apply chars_inj. rewrite chars_str, chars_template.
    cbn [List.concat fmap list_fmap]. cbn. by rewrite app_nil_r, <- !app_assoc. }
  rewrite (proj2 (jobId_with_extension _ _ _ Hbj (or_intror Hne)
                    ltac:(by apply Forall_app) He Hd)).
  by rewrite str_app, !str_chars.
Qed.

(** X11.  The paths of a job lead back to its id: the audio file and the subtitle
    file have the job id of the job, as the transcriber needs to name its
    output after the audio file, and the video and the temporary copy have
    it after their prefix. *)
Theorem derived_paths_round_trip filePath :
  jobId filePath ≠ EmptyString →
  jobId (audioFile filePath) = jobId filePath ∧
  jobId (generatedSrt filePath) = jobId filePath ∧
  jobId (finalVideo filePath) = "subtitled_" +:+ jobId filePath ∧
  jobId (localSrt filePath) = "temp_" +:+ jobId filePath.
Proof.
  intros Hne. pose proof (no_slash_jobId filePath) as Hj.
  destruct (derived_paths_eq filePath) as (-> & -> & -> & ->).
  assert (chars (jobId filePath) ≠ []) as Hc.
  { intros H. apply Hne. by rewrite <- (str_chars (jobId filePath)), H. }
  repeat split.
  - change (template ["/app/uploads/"; jobId filePath; ".wav"])
      with (template ["/app/uploads"; "/"; EmptyString; jobId filePath; "."; "wav"]).
    rewrite jobId_wrapped; try done; try no_slash_literal;
      unfold no_dot; cbn; repeat constructor; discriminate.
  - change (template ["/app/outputs/"; jobId filePath; ".srt"])
      with (template ["/app/outputs"; "/"; EmptyString; jobId filePath; "."; "srt"]).
    rewrite jobId_wrapped; try done; try no_slash_literal;
      unfold no_dot; cbn; repeat constructor; discriminate.
  - change (template ["/app/outputs/subtitled_"; jobId filePath; ".mp4"])
      with (template ["/app/outputs"; "/"; "subtitled_"; jobId filePath; "."; "mp4"]).
    rewrite jobId_wrapped; try done; try no_slash_literal;
      unfold no_dot; cbn; repeat constructor; discriminate.
  - change (template ["/app/temp_"; jobId filePath; ".srt"])
      with (template ["/app"; "/"; "temp_"; jobId filePath; "."; "srt"]).
    rewrite jobId_wrapped; try done; try no_slash_literal;
      unfold no_dot; cbn; repeat constructor; discriminate.
Qed.

Lemma round_trip_witness :
  jobId (file_path movie) ≠ EmptyString ∧
  jobId (audioFile (file_path movie)) = jobId (file_path movie).
Proof.
  assert (jobId (file_path movie) ≠ EmptyString) as H by (vm_compute; discriminate).
  split; [exact H|].
  exact (proj1 (derived_paths_round_trip (file_path movie) H)).
Defined.

Lemma failed_tool_witness :
  let p := file_path movie in
  let wf := (processVideo (failing_burn p) p "movie.mp4" (Some alice) movie_world).2 in
  let inv := mkInvocation (burnCmd p) (ExecFailed "Command failed: ffmpeg")
               ({[ p ]} ∪ {[ audioFile p ]} ∪ {[ generatedSrt p ]} ∪ {[ localSrt p ]}) in
  invocations_since movie_world wf !! 2%nat = Some inv ∧
  inv_result inv = ExecFailed "Command failed: ffmpeg" ∧
  last (invocations_since movie_world wf) = Some inv ∧
  errors_of (events_since movie_world wf) = ["Command failed: ffmpeg"].
Proof.
  cbv zeta.
  set (p := file_path movie).
  set (wf := (processVideo (failing_burn p) p "movie.mp4" (Some alice) movie_world).2).
  set (inv := mkInvocation (burnCmd p) (ExecFailed "Command failed: ffmpeg")
                ({[ p ]} ∪ {[ audioFile p ]} ∪ {[ generatedSrt p ]} ∪ {[ localSrt p ]})).
  assert (invocations_since movie_world wf !! 2%nat = Some inv) as Hin
    by (vm_compute; reflexivity).
  assert (inv_result inv = ExecFailed "Command failed: ffmpeg") as Hres by reflexivity.
  split; [exact Hin|]. split; [exact Hres|].
  destruct (failed_tool_ends_job (failing_burn p) p "movie.mp4" (Some alice) movie_world
              inv "Command failed: ffmpeg" (list_elem_of_lookup_2 _ _ _ Hin) Hres)
    as (Hlast & _ & Herr & _).
  exact (conj Hlast Herr).
Defined.

Lemma frame_witness :
  let p := file_path movie in
  let wf := (processVideo (working_tools p) p "movie.mp4" (Some alice) movie_world).2 in
  finalVideo p ≠ localSrt p ∧ finalVideo p ≠ audioFile p ∧
  (finalVideo p ∈ files wf ↔ finalVideo p ∈ files_after_tools movie_world wf).
Proof.
  cbv zeta.
  assert (finalVideo (file_path movie) ≠ localSrt (file_path movie)) as H1
    by (vm_compute; discriminate).
  assert (finalVideo (file_path movie) ≠ audioFile (file_path movie)) as H2
    by (vm_compute; discriminate).
  split; [exact H1|]. split; [exact H2|].
  exact (proj2 (orchestrator_frame (working_tools (file_path movie)) (file_path movie)
                  "movie.mp4" (Some alice) movie_world) _ H1 H2).
Defined.

Lemma no_file_witness :
  let r := post_upload no_tools ∅ (mkRequest None "nobody") movie_world in
  req_file (mkRequest None "nobody") = None ∧
  ∃ response, r.1 = Return response ∧ status response = 400%Z ∧ r.2 = movie_world.
Proof.
  cbv zeta.
  assert (req_file (mkRequest None "nobody") = None) as H by reflexivity.
  split; [exact H|].
  destruct (upload_always_answers no_tools ∅ (mkRequest None "nobody") movie_world)
    as (response & Hr & H400 & _ & Hw & _).
  exact (ex_intro _ response (conj Hr (conj (proj2 H400 H) (Hw H)))).
Defined.
